(** * Spricut: sprite detection, flood selection, matting and slicing

    A shallow embedding of [utils/spriteUtils.ts], of the handlers of
    [App.tsx] and [components/ImageEditor.tsx] that call it and of the
    frame lookup of [components/FramePreview.tsx], with the properties the
    specification states and further properties of the code.

    Conventions of the embedding.
    - JavaScript numbers that hold pixel coordinates, indices and channel
      values are integers ([Z]); numbers that may carry a fraction (the
      seed of the flood fill, the scale and the destination box of a
      draw, the mouse position in canvas coordinates) are exact rationals
      ([Q]): the rounding of floating-point arithmetic is not modelled.
      NaN and the infinities are not represented.
    - A typed array ([Uint8Array], [Uint8ClampedArray]) is a [list Z]; it is
      read with [rd] and written with [wr].
    - A JavaScript array used as a stack ([push]/[pop]) is a list whose
      head is the top of the stack.
    - The two [while] loops are given fuel; [OutOfFuel] is a result of the
      model only, and the theorems show that it does not occur.
    - A 2D canvas context is taken to be available: [Image] stands for
      the pixels read back from it, and the early exits for a missing
      context are left out.  The resampling of [drawImage] is the
      browser's; it enters as a parameter ([Renderer]).  The canvas
      stores colour multiplied by alpha: of what is written to it the
      encoding keeps the size and the alpha of every pixel, not the colour
      bytes of a pixel of alpha 0.
    - [Array.prototype.sort] is the engine's.  The order of its result is
      stated for every sort that meets the standard ([conforming]); where
      only the entries of the result matter the stable insertion sort
      stands for it.
    - React state is passed explicitly: a handler takes the state it reads
      and returns the state its setters leave ([Editor] gathers the state
      of the editor and the two pieces of [App] that its callbacks set).
      In manual mode the rects the editor is given are the manual rects. *)

From Stdlib Require Import ZArith QArith Qround Qminmax Lia Lqa List Permutation.
From stdpp Require Import base list list_numbers.

Local Open Scope Z_scope.

(** ** Data model ([types.ts]) *)

Record Point := { px : Z; py : Z }.

Record Rect := {
  rx : Z;
  ry : Z;
  rwidth : Z;
  rheight : Z;
  rpath : option (list Point)
}.

Record Color := { cr : Z; cg : Z; cb : Z }.

(** What [getImageData] gives for an image: its size and the RGBA bytes in
    row-major order, four per pixel. *)
Record Image := {
  img_width : nat;
  img_height : nat;
  data : list Z
}.

Definition width (img : Image) : Z := Z.of_nat (img_width img).
Definition height (img : Image) : Z := Z.of_nat (img_height img).

(** Result of a loop that runs on fuel. *)
Inductive run (A : Type) : Type :=
  | Finished (a : A)
  | OutOfFuel.
Arguments Finished {A} a.
Arguments OutOfFuel {A}.

(** ** Typed arrays *)

(** [a[i]].  The buffers of this program are only read inside their bounds
    (each read follows the bounds test of its loop); outside them the model
    reads 0. *)
Definition rd (a : list Z) (i : Z) : Z :=
  if i <? 0 then 0 else default 0 (a !! Z.to_nat i).

(** [a[i] = v]; a typed array ignores a write outside its bounds. *)
Definition wr (a : list Z) (i v : Z) : list Z :=
  if i <? 0 then a else <[Z.to_nat i := v]> a.

(** [new Uint8Array(n)] *)
Definition zeros (n : Z) : list Z := replicate (Z.to_nat n) 0.

(** ** Pixels *)

Definition red_at (img : Image) (idx : Z) : Z := rd (data img) (idx * 4).
Definition green_at (img : Image) (idx : Z) : Z := rd (data img) (idx * 4 + 1).
Definition blue_at (img : Image) (idx : Z) : Z := rd (data img) (idx * 4 + 2).
Definition alpha_at (img : Image) (idx : Z) : Z := rd (data img) (idx * 4 + 3).

(** The four neighbours, in the order the source lists them. *)
Definition neighbors (x y : Z) : list (Z * Z) :=
  [(x + 1, y); (x - 1, y); (x, y + 1); (x, y - 1)].

(** [nx >= 0 && nx < width && ny >= 0 && ny < height] *)
Definition in_bounds (w h nx ny : Z) : bool :=
  (0 <=? nx) && (nx <? w) && (0 <=? ny) && (ny <? h).

(** ** [detectSprites] *)

Definition alphaThreshold : Z := 10.

Record Bounds := { minX : Z; maxX : Z; minY : Z; maxY : Z }.

(** The four [if (currX < minX) minX = currX; ...] updates. *)
Definition stretch (bb : Bounds) (currX currY : Z) : Bounds :=
  {| minX := if currX <? minX bb then currX else minX bb;
     maxX := if currX >? maxX bb then currX else maxX bb;
     minY := if currY <? minY bb then currY else minY bb;
     maxY := if currY >? maxY bb then currY else maxY bb |}.

(** Body of [for (const { nx, ny } of neighbors)] in [detectSprites]. *)
Definition detect_neighbor (img : Image) (st : list Z * list Z) (n : Z * Z)
  : list Z * list Z :=
  let '(visited, queue) := st in
  let '(nx, ny) := n in
  if in_bounds (width img) (height img) nx ny then
    let nIdx := ny * width img + nx in
    if rd visited nIdx =? 0 then
      let nAlpha := alpha_at img nIdx in
      if nAlpha >? alphaThreshold then (wr visited nIdx 1, nIdx :: queue)
      else st
    else st
  else st.

(** [while (queue.length > 0)] of [detectSprites]. *)
Fixpoint island_loop (img : Image) (fuel : nat) (visited queue : list Z)
  (bb : Bounds) : run (list Z * Bounds) :=
  match queue with
  | [] => Finished (visited, bb)
  | currIdx :: queue =>
    match fuel with
    | O => OutOfFuel
    | S fuel =>
      let currX := Z.rem currIdx (width img) in
      let currY := currIdx / width img in
      let bb := stretch bb currX currY in
      let '(visited, queue) :=
        fold_left (detect_neighbor img) (neighbors currX currY) (visited, queue) in
      island_loop img fuel visited queue bb
    end
  end.

Definition rect_of_bounds (img : Image) (bb : Bounds) : Rect :=
  {| rx := Z.max 0 (minX bb);
     ry := Z.max 0 (minY bb);
     rwidth := Z.min (width img - minX bb) (maxX bb - minX bb + 1);
     rheight := Z.min (height img - minY bb) (maxY bb - minY bb + 1);
     rpath := None |}.

(** Body of the two nested [for] loops, at pixel [(x, y)]. *)
Definition scan_pixel (img : Image) (st : run (list Z * list Rect)) (x y : Z)
  : run (list Z * list Rect) :=
  match st with
  | OutOfFuel => OutOfFuel
  | Finished (visited, rects) =>
    let idx := y * width img + x in
    if negb (rd visited idx =? 0) then st
    else
      let alpha := alpha_at img idx in
      if alpha >? alphaThreshold then
        let visited := wr visited idx 1 in
        match island_loop img (Z.to_nat (width img * height img)) visited [idx]
                {| minX := x; maxX := x; minY := y; maxY := y |} with
        | Finished (visited, bb) =>
            Finished (visited, rects ++ [rect_of_bounds img bb])
        | OutOfFuel => OutOfFuel
        end
      else st
  end.

Definition scan_row (img : Image) (st : run (list Z * list Rect)) (y : Z)
  : run (list Z * list Rect) :=
  fold_left (fun st x => scan_pixel img st x y) (seqZ 0 (width img)) st.

Definition scan_image (img : Image) : run (list Z * list Rect) :=
  fold_left (scan_row img) (seqZ 0 (height img))
    (Finished (zeros (width img * height img), [])).

(** The comparison function given to [sort]. *)
Definition compare_rects (a b : Rect) : Z :=
  let rowDiff := ry a - ry b in
  if Z.abs rowDiff >? 10 then rowDiff else rx a - rx b.

(** [Array.prototype.sort] belongs to the engine.  The standard asks that
    it rearrange the array, and that the result be in order when the
    comparison function is consistent on the elements; for a comparison
    that is not, and [compare_rects] is not transitive, the order is the
    engine's choice.  [sort_by], the stable insertion sort, is one sort
    that meets the standard: [detectSprites] is written with it, and what
    is proved of [detectSprites] uses of it only that it rearranges.  What
    is proved of the order is proved of [detectSprites_with], for every
    sort that meets the standard. *)
Fixpoint insert_by {A} (cmp : A -> A -> Z) (a : A) (l : list A) : list A :=
  match l with
  | [] => [a]
  | b :: l' => if cmp a b <=? 0 then a :: l else b :: insert_by cmp a l'
  end.

Fixpoint sort_by {A} (cmp : A -> A -> Z) (l : list A) : list A :=
  match l with
  | [] => []
  | a :: l' => insert_by cmp a (sort_by cmp l')
  end.

Definition detectSprites (img : Image) : run (list Rect) :=
  match scan_image img with
  | Finished (_, rects) => Finished (sort_by compare_rects rects)
  | OutOfFuel => OutOfFuel
  end.

(** What an engine does with a comparison function and an array. *)
Definition Sorter : Type := (Rect -> Rect -> Z) -> list Rect -> list Rect.

(** [detectSprites] run on an engine whose [sort] is [sort]. *)
Definition detectSprites_with (sort : Sorter) (img : Image) : run (list Rect) :=
  match scan_image img with
  | Finished (_, rects) => Finished (sort compare_rects rects)
  | OutOfFuel => OutOfFuel
  end.

(** ** [performFloodFill] *)

Definition Qltb (a b : Q) : bool := negb (Qle_bool b a).

(** [Math.abs(r - startR) + Math.abs(g - startG) + Math.abs(b - startB)] *)
Definition manhattan (r g b r0 g0 b0 : Z) : Z :=
  Z.abs (r - r0) + Z.abs (g - g0) + Z.abs (b - b0).

(** Body of [for (const {nx, ny} of neighbors)] in [performFloodFill]; the
    state is [(visited, mask, queue)]. *)
Definition fill_neighbor (img : Image) (startR startG startB tolerance : Z)
  (st : list Z * list Z * list Z) (n : Z * Z) : list Z * list Z * list Z :=
  let '(visited, mask, queue) := st in
  let '(nx, ny) := n in
  if in_bounds (width img) (height img) nx ny then
    let nIdx := ny * width img + nx in
    if rd visited nIdx =? 0 then
      let r := red_at img nIdx in
      let g := green_at img nIdx in
      let b := blue_at img nIdx in
      let a := alpha_at img nIdx in
      let diff := manhattan r g b startR startG startB in
      if (a >? 0) && (diff <=? tolerance) then
        (wr visited nIdx 1, wr mask nIdx 1, nIdx :: queue)
      else st
    else st
  else st.

(** [while (queue.length > 0)] of [performFloodFill]. *)
Fixpoint fill_loop (img : Image) (startR startG startB tolerance : Z)
  (fuel : nat) (visited mask queue : list Z) : run (list Z * list Z) :=
  match queue with
  | [] => Finished (visited, mask)
  | idx :: queue =>
    match fuel with
    | O => OutOfFuel
    | S fuel =>
      let x := Z.rem idx (width img) in
      let y := idx / width img in
      let '(visited, mask, queue) :=
        fold_left (fill_neighbor img startR startG startB tolerance)
          (neighbors x y) (visited, mask, queue) in
      fill_loop img startR startG startB tolerance fuel visited mask queue
    end
  end.

(** The result is [Some mask] or [None] for JavaScript's [null]. *)
Definition performFloodFill (img : Image) (startX startY : Q) (tolerance : Z)
  : run (option (list Z)) :=
  let w := width img in
  let h := height img in
  if Qltb startX 0 || Qle_bool (inject_Z w) startX
     || Qltb startY 0 || Qle_bool (inject_Z h) startY then Finished None
  else
    let mask := zeros (w * h) in
    let visited := zeros (w * h) in
    let start := Qfloor startY * w + Qfloor startX in
    let startR := red_at img start in
    let startG := green_at img start in
    let startB := blue_at img start in
    let startA := alpha_at img start in
    if startA =? 0 then Finished None
    else
      let queue := [start] in
      let visited := wr visited start 1 in
      let mask := wr mask start 1 in
      match fill_loop img startR startG startB tolerance (Z.to_nat (w * h))
              visited mask queue with
      | Finished (_, mask) => Finished (Some mask)
      | OutOfFuel => OutOfFuel
      end.

(** ** [applyTransparency] *)

(** How a call completes: with a value, or by throwing. *)
Inductive completion (A : Type) : Type :=
  | Normal (a : A)
  | Throw.
Arguments Normal {A} a.
Arguments Throw {A}.

(** [for (let i = 0; i < mask.length; i++) if (mask[i] === 1) data[i*4+3] = 0] *)
Definition clear_alpha (mask : list Z) (d : list Z) (i : Z) : list Z :=
  if rd mask i =? 1 then wr d (i * 4 + 3) 0 else d.

(** The pixels that [putImageData] writes to the canvas; the returned data
    URL is the canvas encoded.  The canvas keeps the size and the alpha of
    every pixel; it stores colour multiplied by alpha, so the encoding
    does not keep the colour bytes of a pixel of alpha 0.  The function has
    no [throw] and no test on the length of the mask. *)
Definition applyTransparency (img : Image) (mask : list Z) : completion Image :=
  Normal {| img_width := img_width img; img_height := img_height img;
            data := fold_left (clear_alpha mask)
                      (seqZ 0 (Z.of_nat (length mask))) (data img) |}.

(** ** [removeBackgroundFromContext] *)

(** The loop over the canvas bytes, four at a time. *)
Fixpoint chroma_loop (tolerance : Z) (bgColor : Color) (d : list Z) : list Z :=
  match d with
  | r :: g :: b :: a :: rest =>
      let diff := manhattan r g b (cr bgColor) (cg bgColor) (cb bgColor) in
      (if a =? 0 then [r; g; b; a]
       else if diff <=? tolerance then [r; g; b; 0]
       else [r; g; b; a]) ++ chroma_loop tolerance bgColor rest
  | _ => d
  end.

(** The canvas bytes after the call; the tolerance is the constant 30. *)
Definition removeBackgroundFromContext (canvas : list Z) (bgColor : Color)
  : list Z :=
  let tolerance := 30 in
  chroma_loop tolerance bgColor canvas.

(** [getBackgroundColor]: the top-left pixel of the image. *)
Definition getBackgroundColor (img : Image) : option Color :=
  Some {| cr := rd (data img) 0; cg := rd (data img) 1; cb := rd (data img) 2 |}.

(** ** [sliceFromRects] and [sliceSpritesheet] *)

Record ProcessedFrame := {
  id : Z;
  dataUrl : list Z;
  frame_width : Z;
  frame_height : Z;
  sourceRect : Rect
}.

(** One call of the canvas: a cleared canvas of the given size, an optional
    clip polygon, then [drawImage] of a source box into a destination box.
    The browser does the resampling; the model takes the resulting canvas
    bytes from [draw]. *)
Record DrawCall := {
  canvas_width : Z;
  canvas_height : Z;
  clip : option (list (Q * Q));
  src_x : Z; src_y : Z; src_width : Z; src_height : Z;
  dest_x : Q; dest_y : Q; dest_width : Q; dest_height : Q
}.

Definition Renderer : Type := Image -> DrawCall -> list Z.

Definition resolve_background (img : Image) (removeBackground : bool)
  (backgroundColor : option Color) : option Color :=
  if removeBackground then
    match backgroundColor with
    | Some c => Some c
    | None => getBackgroundColor img
    end
  else None.

(** [rects.forEach(rect => { if (rect.width > finalWidth) ... })], then the
    two [Math.max(1, _)]. *)
Definition auto_size (rects : list Rect) : Z * Z :=
  let '(finalWidth, finalHeight) :=
    fold_left (fun (acc : Z * Z) rect =>
      let '(fw, fh) := acc in
      (if rwidth rect >? fw then rwidth rect else fw,
       if rheight rect >? fh then rheight rect else fh)) rects (0, 0) in
  (Z.max 1 finalWidth, Z.max 1 finalHeight).

Definition final_size (rects : list Rect) (customSize : option (Z * Z)) : Z * Z :=
  match customSize with
  | Some (cw, ch) => (cw, ch)
  | None => auto_size rects
  end.

(** [scale] for a source box of the given size. *)
Definition fit_scale (customSize : option (Z * Z)) (finalWidth finalHeight w h : Z) : Q :=
  match customSize with
  | Some _ =>
      let scaleX := (inject_Z finalWidth / inject_Z w)%Q in
      let scaleY := (inject_Z finalHeight / inject_Z h)%Q in
      Qmin scaleX scaleY
  | None => 1%Q
  end.

(** The polygon of the lasso in canvas coordinates. *)
Definition clip_path (rect : Rect) (scale destX destY : Q) : option (list (Q * Q)) :=
  match rpath rect with
  | Some (p :: ps) =>
      Some (map (fun p =>
              let relativeX := px p - rx rect in
              let relativeY := py p - ry rect in
              ((inject_Z relativeX * scale + destX)%Q,
               (inject_Z relativeY * scale + destY)%Q)) (p :: ps))
  | _ => None
  end.

Definition key_canvas (removeBackground : bool) (bgColor : option Color)
  (canvas : list Z) : list Z :=
  match removeBackground, bgColor with
  | true, Some c => removeBackgroundFromContext canvas c
  | _, _ => canvas
  end.

(** Body of [rects.forEach((rect, index) => ...)]. *)
Definition rect_frame (draw : Renderer) (img : Image) (removeBackground : bool)
  (bgColor : option Color) (customSize : option (Z * Z))
  (finalWidth finalHeight : Z) (index : nat) (rect : Rect) : ProcessedFrame :=
  let scale := fit_scale customSize finalWidth finalHeight (rwidth rect) (rheight rect) in
  let drawWidth := (inject_Z (rwidth rect) * scale)%Q in
  let drawHeight := (inject_Z (rheight rect) * scale)%Q in
  let destX := ((inject_Z finalWidth - drawWidth) / 2)%Q in
  let destY := ((inject_Z finalHeight - drawHeight) / 2)%Q in
  let canvas := draw img
    {| canvas_width := finalWidth; canvas_height := finalHeight;
       clip := clip_path rect scale destX destY;
       src_x := rx rect; src_y := ry rect;
       src_width := rwidth rect; src_height := rheight rect;
       dest_x := destX; dest_y := destY;
       dest_width := drawWidth; dest_height := drawHeight |} in
  {| id := Z.of_nat index;
     dataUrl := key_canvas removeBackground bgColor canvas;
     frame_width := finalWidth;
     frame_height := finalHeight;
     sourceRect := rect |}.

Definition sliceFromRects (draw : Renderer) (img : Image) (rects : list Rect)
  (removeBackground : bool) (backgroundColor : option Color)
  (customSize : option (Z * Z)) : list ProcessedFrame :=
  let bgColor := resolve_background img removeBackground backgroundColor in
  let '(finalWidth, finalHeight) := final_size rects customSize in
  imap (rect_frame draw img removeBackground bgColor customSize finalWidth finalHeight)
    rects.

(** Body of the inner [for] of [sliceSpritesheet], at cell [(r, c)]; the
    state is [(frameId, frames)]. *)
Definition grid_cell (draw : Renderer) (img : Image) (removeBackground : bool)
  (bgColor : option Color) (customSize : option (Z * Z))
  (gridFrameWidth gridFrameHeight finalWidth finalHeight : Z) (r : Z)
  (st : Z * list ProcessedFrame) (c : Z) : Z * list ProcessedFrame :=
  let '(frameId, frames) := st in
  let srcX := c * gridFrameWidth in
  let srcY := r * gridFrameHeight in
  let scale := fit_scale customSize finalWidth finalHeight gridFrameWidth gridFrameHeight in
  let drawWidth := (inject_Z gridFrameWidth * scale)%Q in
  let drawHeight := (inject_Z gridFrameHeight * scale)%Q in
  let destX := ((inject_Z finalWidth - drawWidth) / 2)%Q in
  let destY := ((inject_Z finalHeight - drawHeight) / 2)%Q in
  let canvas := draw img
    {| canvas_width := finalWidth; canvas_height := finalHeight;
       clip := None;
       src_x := srcX; src_y := srcY;
       src_width := gridFrameWidth; src_height := gridFrameHeight;
       dest_x := destX; dest_y := destY;
       dest_width := drawWidth; dest_height := drawHeight |} in
  (frameId + 1,
   frames ++ [{| id := frameId;
                 dataUrl := key_canvas removeBackground bgColor canvas;
                 frame_width := finalWidth;
                 frame_height := finalHeight;
                 sourceRect := {| rx := srcX; ry := srcY;
                                  rwidth := gridFrameWidth;
                                  rheight := gridFrameHeight;
                                  rpath := None |} |}]).

Definition sliceSpritesheet (draw : Renderer) (img : Image) (rows cols : Z)
  (removeBackground : bool) (backgroundColor : option Color)
  (customSize : option (Z * Z)) : list ProcessedFrame :=
  let gridFrameWidth := width img / cols in
  let gridFrameHeight := height img / rows in
  if (gridFrameWidth =? 0) || (gridFrameHeight =? 0) then []
  else
    let finalWidth := match customSize with Some (cw, _) => cw | None => gridFrameWidth end in
    let finalHeight := match customSize with Some (_, ch) => ch | None => gridFrameHeight end in
    let bgColor := resolve_background img removeBackground backgroundColor in
    snd (fold_left (fun st r =>
           fold_left (grid_cell draw img removeBackground bgColor customSize
                        gridFrameWidth gridFrameHeight finalWidth finalHeight r)
             (seqZ 0 cols) st)
         (seqZ 0 rows) (0, [])).

(** ** The application ([App.tsx]) *)

Inductive Mode : Type := grid | smart | manual.

Record SpriteConfig := {
  mode : Mode;
  rows : Z;
  cols : Z;
  padding : Z;
  removeBackground : bool;
  backgroundColor : option Color;
  useCustomSize : bool;
  customWidth : Z;
  customHeight : Z
}.

(** The uploaded image; the [File] object is left out. *)
Record UploadedImage := {
  src : Image;
  originalWidth : Z;
  originalHeight : Z
}.

(** What [SpriteUploader] hands over for a decoded image. *)
Definition uploaded (img : Image) : UploadedImage :=
  {| src := img; originalWidth := width img; originalHeight := height img |}.

(** [config.useCustomSize ? { width, height } : undefined] *)
Definition custom_size (config : SpriteConfig) : option (Z * Z) :=
  if useCustomSize config then Some (customWidth config, customHeight config)
  else None.

(** The two nested loops that fill [gridRects] in grid mode. *)
Definition app_grid_rects (image : UploadedImage) (config : SpriteConfig)
  : list Rect :=
  let frameWidth := originalWidth image / cols config in
  let frameHeight := originalHeight image / rows config in
  fold_left (fun gridRects r =>
      fold_left (fun gridRects c =>
          gridRects ++ [{| rx := c * frameWidth; ry := r * frameHeight;
                           rwidth := frameWidth; rheight := frameHeight;
                           rpath := None |}])
        (seqZ 0 (cols config)) gridRects)
    (seqZ 0 (rows config)) [].

(** The smart branch of [process]: the detected rects and the frames. *)
Definition process_smart (draw : Renderer) (image : UploadedImage)
  (config : SpriteConfig) : run (list Rect * list ProcessedFrame) :=
  match detectSprites (src image) with
  | Finished rects =>
      Finished (rects,
                sliceFromRects draw (src image) rects (removeBackground config)
                  (backgroundColor config) (custom_size config))
  | OutOfFuel => OutOfFuel
  end.

(** The grid branch of [process]: the rects shown and the frames. *)
Definition process_grid (draw : Renderer) (image : UploadedImage)
  (config : SpriteConfig) : list Rect * list ProcessedFrame :=
  (app_grid_rects image config,
   sliceSpritesheet draw (src image) (rows config) (cols config)
     (removeBackground config) (backgroundColor config) (custom_size config)).

(** [setManualRects(prev => [...prev, rect])] *)
Definition addManualRect {A} (rect : A) (prev : list A) : list A := prev ++ [rect].

(** [prev.filter((_, i) => keep(i))], the index counted from [i]. *)
Fixpoint filter_index {A} (keep : nat -> bool) (i : nat) (prev : list A) : list A :=
  match prev with
  | [] => []
  | a :: prev' =>
      if keep i then a :: filter_index keep (S i) prev'
      else filter_index keep (S i) prev'
  end.

(** [setManualRects(prev => prev.filter((_, i) => i !== index))] *)
Definition removeManualRect {A} (index : nat) (prev : list A) : list A :=
  filter_index (fun i => negb (i =? index)%nat) 0 prev.

(** [performFloodFill(imgEl, x, y)], the tolerance left to its default. *)
Definition handleWandSelect (img : Image) (x y : Q) : run (option (list Z)) :=
  performFloodFill img x y 30.

(** [handleConfirmRemoval]: the image that replaces the source when a
    selection is confirmed. *)
Definition handleConfirmRemoval (img : Image) (selectionMask : option (list Z))
  : completion Image :=
  match selectionMask with
  | Some mask => applyTransparency img mask
  | None => Normal img
  end.

(** ** The frame preview ([FramePreview.tsx]) *)

(** [frames.find(f => f.id === selectedFrameId)]; no id is selected when
    [selectedFrameId] is [null]. *)
Definition selectedFrame (frames : list ProcessedFrame)
  (selectedFrameId : option Z) : option ProcessedFrame :=
  match selectedFrameId with
  | Some k => find (fun f => id f =? k) frames
  | None => None
  end.

(** ** The editor ([ImageEditor.tsx]) *)

(** A rect as the editor builds it from a free-hand path: the box in whole
    pixels, the path in the fractional canvas coordinates of the mouse. *)
Record DrawnRect := {
  drawn_x : Z;
  drawn_y : Z;
  drawn_width : Z;
  drawn_height : Z;
  drawn_path : list (Q * Q)
}.

(** [canvas.getBoundingClientRect()] *)
Record ClientRect := {
  rect_left : Q;
  rect_top : Q;
  rect_width : Q;
  rect_height : Q
}.

Record MouseEvent := { clientX : Q; clientY : Q; button : Z }.

(** The props and the state of the editor that its mouse handlers read and
    write. *)
Record Editor := {
  ed_mode : Mode;
  isWandMode : bool;
  isDrawing : bool;
  currentPath : list (Q * Q);
  manualRects : list DrawnRect;
  selectionMask : option (list Z)
}.

Definition is_manual (m : Mode) : bool :=
  match m with manual => true | _ => false end.

(** The canvas has the size of the image. *)
Definition getCanvasCoords (img : Image) (rect : ClientRect) (e : MouseEvent)
  : Q * Q :=
  let scaleX := (inject_Z (width img) / rect_width rect)%Q in
  let scaleY := (inject_Z (height img) / rect_height rect)%Q in
  (((clientX e - rect_left rect) * scaleX)%Q,
   ((clientY e - rect_top rect) * scaleY)%Q).

Definition handleMouseDown (img : Image) (rect : ClientRect) (e : MouseEvent)
  (st : Editor) : run Editor :=
  if negb (button e =? 0) then Finished st
  else if isWandMode st then
    let coords := getCanvasCoords img rect e in
    match handleWandSelect img (inject_Z (Qfloor coords.1))
            (inject_Z (Qfloor coords.2)) with
    | Finished mask =>
        Finished {| ed_mode := ed_mode st; isWandMode := isWandMode st;
                    isDrawing := isDrawing st; currentPath := currentPath st;
                    manualRects := manualRects st; selectionMask := mask |}
    | OutOfFuel => OutOfFuel
    end
  else if is_manual (ed_mode st) then
    let coords := getCanvasCoords img rect e in
    Finished {| ed_mode := ed_mode st; isWandMode := isWandMode st;
                isDrawing := true; currentPath := [coords];
                manualRects := manualRects st;
                selectionMask := selectionMask st |}
  else Finished st.

Definition handleMouseMove (img : Image) (rect : ClientRect) (e : MouseEvent)
  (st : Editor) : Editor :=
  if isWandMode st then st
  else if negb (isDrawing st) || negb (is_manual (ed_mode st)) then st
  else
    let coords := getCanvasCoords img rect e in
    {| ed_mode := ed_mode st; isWandMode := isWandMode st;
       isDrawing := isDrawing st; currentPath := currentPath st ++ [coords];
       manualRects := manualRects st; selectionMask := selectionMask st |}.

(** The running bounds of a path; [None] is the initial [Infinity] or
    [-Infinity]. *)
Record PathBounds := {
  path_minX : option Q;
  path_maxX : option Q;
  path_minY : option Q;
  path_maxY : option Q
}.

(** [if (p.x < minX) minX = p.x; if (p.x > maxX) maxX = p.x; ...] *)
Definition widen (b : PathBounds) (p : Q * Q) : PathBounds :=
  {| path_minX := match path_minX b with
                  | Some m => if Qltb p.1 m then Some p.1 else Some m
                  | None => Some p.1
                  end;
     path_maxX := match path_maxX b with
                  | Some m => if Qltb m p.1 then Some p.1 else Some m
                  | None => Some p.1
                  end;
     path_minY := match path_minY b with
                  | Some m => if Qltb p.2 m then Some p.2 else Some m
                  | None => Some p.2
                  end;
     path_maxY := match path_maxY b with
                  | Some m => if Qltb m p.2 then Some p.2 else Some m
                  | None => Some p.2
                  end |}.

(** The rect of a drawn path.  A bound is still infinite only for the
    empty path, which [handleMouseUp] never passes on. *)
Definition path_rect (path : list (Q * Q)) : option DrawnRect :=
  let b := fold_left widen path
             {| path_minX := None; path_maxX := None;
                path_minY := None; path_maxY := None |} in
  match path_minX b, path_maxX b, path_minY b, path_maxY b with
  | Some minX, Some maxX, Some minY, Some maxY =>
      Some {| drawn_x := Qfloor minX;
              drawn_y := Qfloor minY;
              drawn_width := Qceiling (maxX - minX);
              drawn_height := Qceiling (maxY - minY);
              drawn_path := path |}
  | _, _, _, _ => None
  end.

(** The editor once the stroke is over: not drawing, no current path. *)
Definition stroke_done (st : Editor) (rects : list DrawnRect) : Editor :=
  {| ed_mode := ed_mode st; isWandMode := isWandMode st;
     isDrawing := false; currentPath := [];
     manualRects := rects; selectionMask := selectionMask st |}.

Definition handleMouseUp (st : Editor) : Editor :=
  if isWandMode st then st
  else if negb (isDrawing st) || negb (is_manual (ed_mode st)) then st
  else if (length (currentPath st) <? 3)%nat then stroke_done st (manualRects st)
  else
    match path_rect (currentPath st) with
    | Some rect =>
        if (drawn_width rect >? 2) && (drawn_height rect >? 2)
        then stroke_done st (addManualRect rect (manualRects st))
        else stroke_done st (manualRects st)
    | None => stroke_done st (manualRects st)
    end.

(** [coords.x >= r.x && coords.x <= r.x + r.width && coords.y >= r.y &&
    coords.y <= r.y + r.height] *)
Definition under (coords : Q * Q) (r : DrawnRect) : bool :=
  Qle_bool (inject_Z (drawn_x r)) coords.1
  && Qle_bool coords.1 (inject_Z (drawn_x r + drawn_width r))
  && Qle_bool (inject_Z (drawn_y r)) coords.2
  && Qle_bool coords.2 (inject_Z (drawn_y r + drawn_height r)).

(** [for (let i = rects.length - 1; i >= 0; i--)], entered with [i] rects
    still to look at; the result is the index handed to
    [onRemoveManualRect], if any. *)
Fixpoint topmost (coords : Q * Q) (rects : list DrawnRect) (i : nat) : option nat :=
  match i with
  | O => None
  | S j =>
      match rects !! j with
      | Some r => if under coords r then Some j else topmost coords rects j
      | None => topmost coords rects j
      end
  end.

Definition handleContextMenu (coords : Q * Q) (st : Editor) : Editor :=
  if isWandMode st then st
  else if negb (is_manual (ed_mode st)) then st
  else
    match topmost coords (manualRects st) (length (manualRects st)) with
    | Some i =>
        {| ed_mode := ed_mode st; isWandMode := isWandMode st;
           isDrawing := isDrawing st; currentPath := currentPath st;
           manualRects := removeManualRect i (manualRects st);
           selectionMask := selectionMask st |}
    | None => st
    end.

(** ** Connected regions of an image *)

Definition pixel : Type := Z * Z.

Definition inside (img : Image) (p : pixel) : Prop :=
  0 <= p.1 < width img /\ 0 <= p.2 < height img.

Definition index_of (img : Image) (p : pixel) : Z := p.2 * width img + p.1.

(** Two pixels are 4-adjacent when they differ by one step along one axis. *)
Definition adjacent (p q : pixel) : Prop :=
  Z.abs (p.1 - q.1) + Z.abs (p.2 - q.2) = 1.

(** [connected ok p q]: a 4-connected path leads from [p] to [q] and every
    pixel on it, both ends included, satisfies [ok]. *)
Inductive connected (ok : pixel -> Prop) : pixel -> pixel -> Prop :=
  | connected_here p : ok p -> connected ok p p
  | connected_step p q r :
      connected ok p q -> adjacent q r -> ok r -> connected ok p r.

(** [grown ok p q]: a 4-connected path leads from [p] to [q] and every
    pixel on it after [p] satisfies [ok]; nothing is asked of [p] itself. *)
Inductive grown (ok : pixel -> Prop) : pixel -> pixel -> Prop :=
  | grown_here p : grown ok p p
  | grown_step p q r : grown ok p q -> adjacent q r -> ok r -> grown ok p r.

(** The membership predicate of [detectSprites]. *)
Definition opaque (img : Image) (p : pixel) : Prop :=
  inside img p /\ alpha_at img (index_of img p) > alphaThreshold.

(** The membership predicate of [performFloodFill] for a seed pixel. *)
Definition similar (img : Image) (seed : pixel) (tolerance : Z) (p : pixel) : Prop :=
  inside img p /\
  alpha_at img (index_of img p) > 0 /\
  manhattan (red_at img (index_of img p)) (green_at img (index_of img p))
            (blue_at img (index_of img p))
            (red_at img (index_of img seed)) (green_at img (index_of img seed))
            (blue_at img (index_of img seed)) <= tolerance.

(** [r] is the tight bounding box of the component of [s]: it contains the
    component and each of its four sides touches it; it carries no path. *)
Definition component_box (img : Image) (s : pixel) (r : Rect) : Prop :=
  (forall p, connected (opaque img) s p ->
     rx r <= p.1 < rx r + rwidth r /\ ry r <= p.2 < ry r + rheight r) /\
  (exists p, connected (opaque img) s p /\ p.1 = rx r) /\
  (exists p, connected (opaque img) s p /\ p.1 = rx r + rwidth r - 1) /\
  (exists p, connected (opaque img) s p /\ p.2 = ry r) /\
  (exists p, connected (opaque img) s p /\ p.2 = ry r + rheight r - 1) /\
  rpath r = None.

(** No two entries of the list lie in one component. *)
Definition separated (ok : pixel -> Prop) (l : list pixel) : Prop :=
  forall i j s t,
    l !! i = Some s -> l !! j = Some t -> connected ok s t -> i = j.

(** Reading order of two rects, as the specification words it. *)
Definition reading_order (a b : Rect) : Prop :=
  if Z.abs (ry a - ry b) <=? 10 then rx a <= rx b else ry a <= ry b.

(** Every element and every later element satisfy [R]. *)
Inductive pairwise {A} (R : A -> A -> Prop) : list A -> Prop :=
  | pairwise_nil : pairwise R []
  | pairwise_cons a l : Forall (R a) l -> pairwise R l -> pairwise R (a :: l).

(** [R] is transitive on the entries of the list. *)
Definition transitive_on {A} (R : A -> A -> Prop) (l : list A) : Prop :=
  forall a b c, a ∈ l -> b ∈ l -> c ∈ l -> R a b -> R b c -> R a c.

(** Being on one row is transitive among the rects: no rect is within 10
    of two rects that are further than 10 from each other. *)
Definition rows_apart (l : list Rect) : Prop :=
  forall a b c, a ∈ l -> b ∈ l -> c ∈ l ->
    Z.abs (ry a - ry b) <= 10 -> Z.abs (ry b - ry c) <= 10 ->
    Z.abs (ry a - ry c) <= 10.

(** A comparison function that is consistent on the entries of the list:
    an entry equals itself, the sign turns with the arguments, and "at or
    before" is transitive. *)
Definition consistent (cmp : Rect -> Rect -> Z) (l : list Rect) : Prop :=
  forall a b c, a ∈ l -> b ∈ l -> c ∈ l ->
    cmp a a = 0 /\
    (cmp a b < 0 <-> 0 < cmp b a) /\
    (cmp a b <= 0 -> cmp b c <= 0 -> cmp a c <= 0).

(** A sort rearranges: nothing is lost, added or repeated. *)
Definition rearranges (sort : Sorter) : Prop :=
  forall cmp l, Permutation (sort cmp l) l.

(** A sort that meets the standard: it rearranges, and under a comparison
    consistent on the entries every entry is at or before every later
    one. *)
Definition conforming (sort : Sorter) : Prop :=
  rearranges sort /\
  forall cmp l,
    consistent cmp l -> pairwise (fun a b => cmp a b <= 0) (sort cmp l).

(** ** The worklist traversal shared by both fills

    [grow] is the loop of [detectSprites] and of [performFloodFill] without
    their bookkeeping: it keeps the visited array and records the indices
    in the order in which they are popped. *)

Definition grow_neighbor (w h : Z) (joins : Z -> bool) (st : list Z * list Z)
  (n : Z * Z) : list Z * list Z :=
  let '(visited, queue) := st in
  let '(nx, ny) := n in
  if in_bounds w h nx ny then
    let nIdx := ny * w + nx in
    if rd visited nIdx =? 0 then
      if joins nIdx then (wr visited nIdx 1, nIdx :: queue) else st
    else st
  else st.

Fixpoint grow (w h : Z) (joins : Z -> bool) (fuel : nat) (visited queue : list Z)
  : run (list Z * list Z) :=
  match queue with
  | [] => Finished (visited, [])
  | c :: queue =>
    match fuel with
    | O => OutOfFuel
    | S fuel =>
      let '(visited, queue) :=
        fold_left (grow_neighbor w h joins) (neighbors (Z.rem c w) (c / w))
          (visited, queue) in
      match grow w h joins fuel visited queue with
      | Finished (visited, popped) => Finished (visited, c :: popped)
      | OutOfFuel => OutOfFuel
      end
    end
  end.

(** Number of cells of a visited array that are still 0. *)
Fixpoint free_cells (a : list Z) : nat :=
  match a with
  | [] => O
  | z :: a => ((if (z =? 0)%Z then 1 else 0) + free_cells a)%nat
  end.

Definition bits (a : list Z) : Prop := forall i, rd a i = 0 \/ rd a i = 1.

(** ** Grid cells, as the specification lists them *)

Definition grid_rects (img : Image) (rows cols : Z) : list Rect :=
  let cellWidth := width img / cols in
  let cellHeight := height img / rows in
  r ← seqZ 0 rows;
  c ← seqZ 0 cols;
  [{| rx := c * cellWidth; ry := r * cellHeight;
      rwidth := cellWidth; rheight := cellHeight; rpath := None |}].

(** ** Pixels of a buffer, four bytes each *)

Fixpoint pixels_of (d : list Z) : list (Z * Z * Z * Z) :=
  match d with
  | r :: g :: b :: a :: rest => (r, g, b, a) :: pixels_of rest
  | _ => []
  end.

(** What the specification says of one pixel under [chromaKey]. *)
Definition keyed_pixel (tolerance : Z) (bg : Color) (p : Z * Z * Z * Z)
  : Z * Z * Z * Z :=
  let '(r, g, b, a) := p in
  if a =? 0 then p
  else if manhattan r g b (cr bg) (cg bg) (cb bg) <=? tolerance then (r, g, b, 0)
  else p.

(** ** Notions used by the proofs *)

(** The test that lets a neighbour join an island. *)
Definition above_threshold (img : Image) (i : Z) : bool :=
  alpha_at img i >? alphaThreshold.

(** What holds between two pixels of the scan: the visited cells are the
    components of the seeds found so far, one rect per seed. *)
Definition scan_inv (img : Image) (seeds : list pixel) (v : list Z)
  (rects : list Rect) : Prop :=
  length v = Z.to_nat (width img * height img) /\
  (forall q, inside img q ->
     (rd v (index_of img q) <> 0 <->
      exists s, s ∈ seeds /\ connected (opaque img) s q)) /\
  Forall2 (component_box img) seeds rects /\
  separated (opaque img) seeds.

(** The test that lets a neighbour join the selection. *)
Definition matches (img : Image) (startR startG startB tolerance : Z) (i : Z) : bool :=
  (alpha_at img i >? 0) &&
  (manhattan (red_at img i) (green_at img i) (blue_at img i) startR startG startB
   <=? tolerance).

(** The bounds test of [performFloodFill], on the seed as given. *)
Definition out_of_bounds (img : Image) (x y : Q) : Prop :=
  (x < 0 \/ inject_Z (width img) <= x \/ y < 0 \/ inject_Z (height img) <= y)%Q.

(** The rect of the grid cell in row [r] and column [c]. *)
Definition cell_rect (cellWidth cellHeight r c : Z) : Rect :=
  {| rx := c * cellWidth; ry := r * cellHeight;
     rwidth := cellWidth; rheight := cellHeight; rpath := None |}.

(** The bounds are finite and hold the point. *)
Definition covers (b : PathBounds) (p : Q * Q) : Prop :=
  exists a c e g,
    path_minX b = Some a /\ path_maxX b = Some c /\
    path_minY b = Some e /\ path_maxY b = Some g /\
    (a <= p.1 /\ p.1 <= c /\ e <= p.2 /\ p.2 <= g)%Q.

(** ** Example inputs *)

(** An image of the given size whose pixels are black with the given
    alpha values (row-major). *)
Definition image_of_alphas (w h : nat) (alphas : list Z) : Image :=
  {| img_width := w; img_height := h;
     data := concat (map (fun a => [0; 0; 0; a]) alphas) |}.

(** An image whose pixels are transparent, except the listed ones, which
    are opaque black. *)
Definition image_with (w h : nat) (lit : list pixel) : Image :=
  image_of_alphas w h
    (y ← seqZ 0 (Z.of_nat h);
     x ← seqZ 0 (Z.of_nat w);
     [if existsb (fun p : pixel => (p.1 =? x) && (p.2 =? y)) lit then 255 else 0]).

(** Three single-pixel sprites going down and to the left in steps of six
    rows. *)
Definition staircase : Image := image_with 3 13 [(2, 0); (1, 6); (0, 12)].

(** A single opaque black pixel. *)
Definition dot : Image := image_of_alphas 1 1 [255].

(** Two opaque black pixels in a row. *)
Definition pair_row : Image := image_of_alphas 2 1 [255; 255].

(** A red pixel next to a blue one, both opaque. *)
Definition red_blue : Image :=
  {| img_width := 2; img_height := 1; data := [255; 0; 0; 255; 0; 0; 255; 255] |}.

(** Two single-pixel sprites on one row. *)
Definition two_dots : Image := image_with 3 1 [(0, 0); (2, 0)].

(** Two single-pixel sprites three rows apart, the right one higher, and a
    third far below. *)
Definition two_rows : Image := image_with 3 16 [(2, 0); (0, 3); (1, 15)].

(** The background colour white. *)
Definition white : Color := {| cr := 255; cg := 255; cb := 255 |}.

(** Three pixels: almost white, black, and a transparent one. *)
Definition near_white : list Z :=
  [250; 250; 250; 255; 0; 0; 0; 255; 9; 9; 9; 0].

(** A renderer for examples: it leaves the canvas empty. *)
Definition blank : Renderer := fun _ _ => [].

(** A rect twice as wide as high. *)
Definition wide : Rect :=
  {| rx := 0; ry := 0; rwidth := 4; rheight := 2; rpath := None |}.

(** A 4 x 4 opaque image. *)
Definition square4 : Image := image_of_alphas 4 4 (replicate 16 255).

(** A 2 x 2 grid without background removal or custom size. *)
Definition grid_2x2 : SpriteConfig :=
  {| mode := grid; rows := 2; cols := 2; padding := 0;
     removeBackground := false; backgroundColor := None;
     useCustomSize := false; customWidth := 64; customHeight := 64 |}.

(** An editor in manual mode at the end of a three-point stroke. *)
Definition stroke : Editor :=
  {| ed_mode := manual; isWandMode := false; isDrawing := true;
     currentPath := [(1 # 2, 1 # 2); (9 # 2, 1); (3, 5)]%Q;
     manualRects := []; selectionMask := None |}.

(** An editor in manual mode with two rects that overlap. *)
Definition two_rects : Editor :=
  {| ed_mode := manual; isWandMode := false; isDrawing := false;
     currentPath := [];
     manualRects :=
       [ {| drawn_x := 0; drawn_y := 0; drawn_width := 10; drawn_height := 10;
            drawn_path := [] |};
         {| drawn_x := 5; drawn_y := 5; drawn_width := 10; drawn_height := 10;
            drawn_path := [] |} ];
     selectionMask := None |}.

(** An editor in wand mode, a canvas shown 200 x 100 at (10, 20), and a
    left click on it. *)
Definition wand_editor : Editor :=
  {| ed_mode := grid; isWandMode := true; isDrawing := false;
     currentPath := []; manualRects := []; selectionMask := None |}.

Definition shown : ClientRect :=
  {| rect_left := 10; rect_top := 20; rect_width := 200; rect_height := 100 |}.

Definition click : MouseEvent := {| clientX := 150; clientY := 50; button := 0 |}.

(** An editor in manual mode before any stroke. *)
Definition idle : Editor :=
  {| ed_mode := manual; isWandMode := false; isDrawing := false;
     currentPath := []; manualRects := []; selectionMask := None |}.

(** A renderer for examples: one opaque white pixel next to a red one. *)
Definition white_red : Renderer := fun _ _ => [255; 255; 255; 255; 255; 0; 0; 255].

(** * Proofs *)

(** ** Typed arrays *)

Lemma rd_nonneg (a : list Z) i :
  0 <= i -> rd a i = default 0 (a !! Z.to_nat i).
Proof. intros Hi. unfold rd. destruct (Z.ltb_spec i 0); [lia | done]. Qed.

Lemma rd_outside (a : list Z) i :
  ~ (0 <= i < Z.of_nat (length a)) -> rd a i = 0.
Proof.
  intros Hi. unfold rd. destruct (Z.ltb_spec i 0); [done |].
  rewrite lookup_ge_None_2; [done | lia].
Qed.

Lemma length_wr a i v : length (wr a i v) = length a.
Proof. unfold wr. destruct (i <? 0); [done | apply length_insert]. Qed.

Lemma rd_wr_same a i v :
  0 <= i < Z.of_nat (length a) -> rd (wr a i v) i = v.
Proof.
  intros Hi. unfold rd, wr. destruct (Z.ltb_spec i 0); [lia |].
  rewrite list_lookup_insert_eq; [done | lia].
Qed.

Lemma rd_wr_other a i j v : i <> j -> rd (wr a i v) j = rd a j.
Proof.
  intros Hne. unfold rd, wr.
  destruct (Z.ltb_spec j 0); [done |].
  destruct (Z.ltb_spec i 0); [done |].
  rewrite list_lookup_insert_ne; [done | lia].
Qed.

Lemma length_zeros n : length (zeros n) = Z.to_nat n.
Proof. apply length_replicate. Qed.

Lemma rd_zeros n i : rd (zeros n) i = 0.
Proof.
  unfold rd, zeros. destruct (i <? 0); [done |].
  destruct (replicate (Z.to_nat n) 0 !! Z.to_nat i) as [z|] eqn:E; [|done].
  apply lookup_replicate in E as [-> _]. done.
Qed.

Lemma bits_zeros n : bits (zeros n).
Proof. intros i. left. apply rd_zeros. Qed.

Lemma bits_wr a i : bits a -> bits (wr a i 1).
Proof.
  intros Ha j. destruct (decide (i = j)) as [<-|Hne].
  - destruct (decide (0 <= i < Z.of_nat (length a))).
    + right. by apply rd_wr_same.
    + left. apply rd_outside. by rewrite length_wr.
  - rewrite rd_wr_other by done. apply Ha.
Qed.

Lemma free_cells_le a : (free_cells a <= length a)%nat.
Proof. induction a as [|z a IH]; simpl; [lia |]. destruct (z =? 0); lia. Qed.

Lemma free_cells_insert (a : list Z) (n : nat) :
  a !! n = Some 0 -> S (free_cells (<[n:=1]> a)) = free_cells a.
Proof.
  revert n. induction a as [|z a IH]; intros [|n] H; simpl in *; try done.
  - by injection H as ->.
  - rewrite <- (IH n H). destruct (z =? 0); lia.
Qed.

Lemma free_cells_wr a i :
  0 <= i < Z.of_nat (length a) -> rd a i = 0 ->
  S (free_cells (wr a i 1)) = free_cells a.
Proof.
  intros Hi H0. rewrite rd_nonneg in H0 by lia.
  unfold wr. destruct (Z.ltb_spec i 0); [lia |].
  apply free_cells_insert.
  destruct (a !! Z.to_nat i) as [z|] eqn:E; simpl in H0; [by subst |].
  apply lookup_ge_None in E. lia.
Qed.

(** ** Coordinates and indices *)

Lemma width_nonneg img : 0 <= width img.
Proof. unfold width. lia. Qed.

Lemma height_nonneg img : 0 <= height img.
Proof. unfold height. lia. Qed.

Lemma in_bounds_inside img x y :
  in_bounds (width img) (height img) x y = true <-> inside img (x, y).
Proof. unfold in_bounds, inside; simpl. rewrite !andb_true_iff. lia. Qed.

Lemma neighbors_adjacent x y (n : pixel) :
  n ∈ neighbors x y <-> adjacent (x, y) n.
Proof.
  unfold neighbors, adjacent. destruct n as [nx ny]; simpl.
  rewrite !elem_of_cons, elem_of_nil. split.
  - intros [H|[H|[H|[H|[]]]]]; injection H as -> ->; lia.
  - intros H.
    assert (Hc : (nx = x + 1 /\ ny = y) \/ (nx = x - 1 /\ ny = y) \/
                 (nx = x /\ ny = y + 1) \/ (nx = x /\ ny = y - 1)) by lia.
    destruct Hc as [[-> ->]|[[-> ->]|[[-> ->]|[-> ->]]]]; auto.
Qed.

Lemma adjacent_sym p q : adjacent p q -> adjacent q p.
Proof. unfold adjacent. lia. Qed.

Lemma index_of_inside img p :
  inside img p -> 0 <= index_of img p < width img * height img.
Proof. unfold inside, index_of. destruct p as [x y]; simpl. nia. Qed.

Lemma rem_index_of img p :
  inside img p -> Z.rem (index_of img p) (width img) = p.1.
Proof.
  intros Hp. pose proof (index_of_inside img p Hp) as Hi.
  unfold inside, index_of in *. destruct p as [x y]; simpl in *.
  rewrite Z.rem_mod_nonneg by lia.
  rewrite Z.add_comm, Z.mod_add by lia. apply Z.mod_small. lia.
Qed.

Lemma div_index_of img p :
  inside img p -> index_of img p / width img = p.2.
Proof.
  intros Hp. unfold inside, index_of in *. destruct p as [x y]; simpl in *.
  rewrite Z.div_add_l by lia. rewrite Z.div_small by lia. lia.
Qed.

Lemma coords_inside img i :
  0 <= i < width img * height img ->
  inside img (Z.rem i (width img), i / width img) /\
  index_of img (Z.rem i (width img), i / width img) = i.
Proof.
  intros Hi. pose proof (width_nonneg img). pose proof (height_nonneg img).
  assert (Hw : 0 < width img) by nia.
  rewrite Z.rem_mod_nonneg by lia.
  pose proof (Z.mod_pos_bound i (width img) Hw).
  pose proof (Z.div_mod i (width img) ltac:(lia)).
  assert (0 <= i / width img) by (apply Z.div_pos; lia).
  assert (i / width img < height img) by (apply Z.div_lt_upper_bound; lia).
  unfold inside, index_of; simpl. lia.
Qed.

Lemma index_of_inj img p q :
  inside img p -> inside img q -> index_of img p = index_of img q -> p = q.
Proof.
  intros Hp Hq E.
  pose proof (rem_index_of img p Hp) as Hx. pose proof (div_index_of img p Hp) as Hy.
  rewrite E in Hx, Hy. rewrite (rem_index_of img q Hq) in Hx.
  rewrite (div_index_of img q Hq) in Hy.
  destruct p, q; simpl in *; congruence.
Qed.

(** ** Paths *)

Lemma grown_connected ok p q : ok p -> grown ok p q -> connected ok p q.
Proof.
  intros Hp. induction 1 as [|p q r _ IH Hadj Hr]; [by constructor |].
  exact (connected_step ok p q r (IH Hp) Hadj Hr).
Qed.

Lemma connected_grown ok p q : connected ok p q -> grown ok p q.
Proof.
  induction 1 as [|p q r _ IH Hadj Hr]; [constructor |].
  exact (grown_step ok p q r IH Hadj Hr).
Qed.

Lemma grown_trans ok p q r : grown ok p q -> grown ok q r -> grown ok p r.
Proof.
  intros Hpq. induction 1 as [|q s r _ IH Hadj Hr]; [done |].
  exact (grown_step ok p s r (IH Hpq) Hadj Hr).
Qed.

Lemma connected_start ok p q : connected ok p q -> ok p.
Proof. induction 1; auto. Qed.

Lemma connected_end ok p q : connected ok p q -> ok q.
Proof. induction 1; auto. Qed.

Lemma connected_trans ok p q r :
  connected ok p q -> connected ok q r -> connected ok p r.
Proof.
  intros Hpq. induction 1 as [|q s r _ IH Hadj Hr]; [done |].
  exact (connected_step ok p s r (IH Hpq) Hadj Hr).
Qed.

Lemma connected_sym ok p q : connected ok p q -> connected ok q p.
Proof.
  induction 1 as [p Hp | p q r Hpq IH Hadj Hr]; [by constructor |].
  eapply connected_trans; [| exact IH].
  eapply connected_step; [by constructor | by apply adjacent_sym |].
  by eapply connected_end.
Qed.

(** ** The worklist traversal *)

Lemma grow_pop w h joins fuel v c q :
  grow w h joins (S fuel) v (c :: q) =
  let '(v1, q1) :=
    fold_left (grow_neighbor w h joins) (neighbors (Z.rem c w) (c / w)) (v, q) in
  match grow w h joins fuel v1 q1 with
  | Finished (v', popped) => Finished (v', c :: popped)
  | OutOfFuel => OutOfFuel
  end.
Proof. reflexivity. Qed.

Section Grow.
Variable img : Image.
Variable joins : Z -> bool.

Local Abbreviation w := (width img).
Local Abbreviation h := (height img).
Local Abbreviation ok := (fun p : pixel => inside img p /\ joins (index_of img p) = true).

(** One round over a list of neighbours: the cells pushed are new, they
    join, and every joining neighbour ends up visited. *)
Lemma grow_neighbors_spec (ns : list pixel) (v q : list Z) :
  length v = Z.to_nat (w * h) ->
  exists v' new,
    fold_left (grow_neighbor w h joins) ns (v, q) = (v', new ++ q) /\
    length v' = length v /\
    (bits v -> bits v') /\
    (forall i, rd v' i <> 0 <-> rd v i <> 0 \/ i ∈ new) /\
    (forall i, i ∈ new ->
       rd v i = 0 /\ exists n, n ∈ ns /\ ok n /\ i = index_of img n) /\
    (forall n, n ∈ ns -> ok n -> rd v' (index_of img n) <> 0) /\
    (free_cells v' + length new = free_cells v)%nat.
Proof.
  revert v q. induction ns as [|[nx ny] ns IH]; intros v q Hlen.
  { exists v, []. simpl. repeat split; auto.
    - intros [H|H]; [done | by apply elem_of_nil in H].
    - by apply elem_of_nil in H.
    - by apply elem_of_nil in H.
    - intros n H. by apply elem_of_nil in H. }
  simpl fold_left.
  destruct (in_bounds w h nx ny) eqn:Hin.
  2:{ destruct (IH v q Hlen) as (v' & new & Hf & Hl & Hb & Hv & Hn & Hc & Hm).
      exists v', new. repeat split; auto; try apply Hv.
      - apply Hn; done.
      - destruct (Hn i H) as (_ & n & Hns & Hok & ->).
        exists n. split; [by right | done].
      - intros n Hns Hok. apply elem_of_cons in Hns as [->|Hns]; [| by apply Hc].
        destruct Hok as [Hok _]. apply in_bounds_inside in Hok. congruence. }
  apply in_bounds_inside in Hin.
  set (nIdx := ny * w + nx).
  assert (HnIdx : nIdx = index_of img (nx, ny)) by done.
  pose proof (index_of_inside img _ Hin) as Hcell. rewrite <- HnIdx in Hcell.
  destruct (Z.eqb_spec (rd v nIdx) 0) as [Hfree|Hbusy].
  2:{ destruct (IH v q Hlen) as (v' & new & Hf & Hl & Hb & Hv & Hn & Hc & Hm).
      exists v', new. repeat split; auto; try apply Hv.
      - apply Hn; done.
      - destruct (Hn i H) as (_ & n & Hns & Hok & ->).
        exists n. split; [by right | done].
      - intros n Hns Hok. apply elem_of_cons in Hns as [->|Hns]; [| by apply Hc].
        apply Hv. left. by rewrite <- HnIdx. }
  destruct (joins nIdx) eqn:Hj.
  2:{ destruct (IH v q Hlen) as (v' & new & Hf & Hl & Hb & Hv & Hn & Hc & Hm).
      exists v', new. repeat split; auto; try apply Hv.
      - apply Hn; done.
      - destruct (Hn i H) as (_ & n & Hns & Hok & ->).
        exists n. split; [by right | done].
      - intros n Hns Hok. apply elem_of_cons in Hns as [->|Hns]; [| by apply Hc].
        destruct Hok as [_ Hok]. rewrite <- HnIdx in Hok. congruence. }
  assert (Hrange : 0 <= nIdx < Z.of_nat (length v)) by (rewrite Hlen; lia).
  destruct (IH (wr v nIdx 1) (nIdx :: q)) as (v' & new & Hf & Hl & Hb & Hv & Hn & Hc & Hm).
  { by rewrite length_wr. }
  exists v', (new ++ [nIdx]). rewrite <- app_assoc. simpl.
  split; [exact Hf |]. split; [by rewrite Hl, length_wr |].
  split; [intros Hbits; by apply Hb, bits_wr |].
  assert (Hsame : rd (wr v nIdx 1) nIdx = 1) by by apply rd_wr_same.
  split; [| split; [| split]].
  - intros i. rewrite Hv, elem_of_app, list_elem_of_singleton.
    destruct (decide (i = nIdx)) as [->|Hne].
    + rewrite Hsame. split; auto.
    + rewrite rd_wr_other by done. tauto.
  - intros i Hi. apply elem_of_app in Hi as [Hi|Hi].
    + destruct (Hn i Hi) as (H0 & n & Hns & Hok & ->). split.
      * destruct (decide (index_of img n = nIdx)) as [E|Hne].
        -- rewrite E in H0. congruence.
        -- by rewrite rd_wr_other in H0.
      * exists n. split; [by right | done].
    + apply list_elem_of_singleton in Hi as ->. split; [done |].
      exists (nx, ny). split; [by left |]. split; [| done].
      split; [done | by rewrite <- HnIdx].
  - intros n Hns Hok. apply elem_of_cons in Hns as [->|Hns]; [| by apply Hc].
    apply Hv. left. rewrite <- HnIdx, Hsame. done.
  - rewrite length_app; simpl.
    pose proof (free_cells_wr v nIdx Hrange Hfree). lia.
Qed.

(** The loop ends within the fuel; it visits exactly the cells it pops,
    each of them grown from the queue, and every joining neighbour of a
    popped cell is visited. *)
Lemma grow_spec (fuel : nat) (v q : list Z) :
  length v = Z.to_nat (w * h) ->
  (forall c, c ∈ q -> 0 <= c < w * h /\ rd v c <> 0) ->
  (free_cells v + length q <= fuel)%nat ->
  exists v' ps,
    grow w h joins fuel v q = Finished (v', ps) /\
    length v' = length v /\
    (bits v -> bits v') /\
    (forall i, rd v' i <> 0 <-> rd v i <> 0 \/ i ∈ ps) /\
    (forall c, c ∈ q -> c ∈ ps) /\
    (forall i, i ∈ ps ->
       0 <= i < w * h /\ (i ∈ q \/ rd v i = 0) /\
       exists c, c ∈ q /\ grown ok (Z.rem c w, c / w) (Z.rem i w, i / w)) /\
    (forall i n, i ∈ ps -> adjacent (Z.rem i w, i / w) n -> ok n ->
       rd v' (index_of img n) <> 0).
Proof.
  revert v q. induction fuel as [|fuel IH]; intros v q Hlen Hq Hfuel.
  { destruct q as [|c q]; [| simpl in Hfuel; lia].
    exists v, []. simpl. repeat split; auto.
    - intros [H|H]; [done | by apply elem_of_nil in H].
    - by apply elem_of_nil in H.
    - by apply elem_of_nil in H.
    - by apply elem_of_nil in H.
    - intros i n H. by apply elem_of_nil in H. }
  destruct q as [|c rest].
  { exists v, []. simpl. repeat split; auto.
    - intros [H|H]; [done | by apply elem_of_nil in H].
    - by apply elem_of_nil in H.
    - by apply elem_of_nil in H.
    - by apply elem_of_nil in H.
    - intros i n H. by apply elem_of_nil in H. }
  rewrite grow_pop.
  destruct (grow_neighbors_spec (neighbors (Z.rem c w) (c / w)) v rest Hlen)
    as (v1 & new & Hf & Hl1 & Hb1 & Hv1 & Hn1 & Hc1 & Hm1).
  rewrite Hf.
  destruct (IH v1 (new ++ rest)) as (v' & ps & Hg & Hl & Hb & Hv & Hsub & Hps & Hcl).
  { by rewrite Hl1. }
  { intros c' Hc'. apply elem_of_app in Hc' as [Hc'|Hc'].
    - split; [| apply Hv1; by right].
      destruct (Hn1 c' Hc') as (_ & n & _ & [Hin _] & ->).
      by apply index_of_inside.
    - destruct (Hq c') as [Hcell Hvis]; [by right |].
      split; [done | apply Hv1; by left]. }
  { rewrite length_app. simpl in Hfuel. lia. }
  rewrite Hg. exists v', (c :: ps).
  split; [done |]. split; [by rewrite Hl, Hl1 |]. split; [by auto |].
  split; [| split; [| split]].
  - intros i. rewrite Hv, Hv1, elem_of_cons. split.
    + intros [[H|H]|H]; auto.
      right; right. apply Hsub, elem_of_app. by left.
    + intros [H|[->|H]]; auto.
      left; left. apply (Hq c). by left.
  - intros c' Hc'. apply elem_of_cons in Hc' as [->|Hc']; [by left |].
    right. apply Hsub, elem_of_app. by right.
  - intros i Hi. apply elem_of_cons in Hi as [->|Hi].
    { split; [apply (Hq c); by left |]. split; [left; by left |].
      exists c. split; [by left | constructor]. }
    destruct (Hps i Hi) as (Hcell & Horig & c' & Hc' & Hgrown).
    split; [done |]. split.
    + destruct Horig as [Horig|Horig].
      * apply elem_of_app in Horig as [Horig|Horig].
        -- right. by apply Hn1.
        -- left. by right.
      * right. destruct (decide (rd v i = 0)) as [|Hne]; [done |].
        exfalso. apply (proj2 (Hv1 i)); auto.
    + apply elem_of_app in Hc' as [Hc'|Hc'].
      * exists c. split; [by left |].
        destruct (Hn1 c' Hc') as (_ & n & Hns & Hok & ->).
        apply neighbors_adjacent in Hns.
        rewrite (rem_index_of img n), (div_index_of img n) in Hgrown
          by apply Hok.
        eapply grown_trans; [| exact Hgrown].
        destruct n as [nx ny]. simpl.
        eapply grown_step; [constructor | exact Hns | exact Hok].
      * exists c'. split; [by right | done].
  - intros i n Hi Hadj Hok. apply elem_of_cons in Hi as [->|Hi].
    + apply Hv. left. apply Hc1; [| done]. by apply neighbors_adjacent.
    + by apply (Hcl i n).
Qed.
End Grow.

(** ** [detectSprites]: one island *)

Lemma island_loop_pop img fuel v c q bb :
  island_loop img (S fuel) v (c :: q) bb =
  let '(v1, q1) :=
    fold_left (detect_neighbor img)
      (neighbors (Z.rem c (width img)) (c / width img)) (v, q) in
  island_loop img fuel v1 q1
    (stretch bb (Z.rem c (width img)) (c / width img)).
Proof. reflexivity. Qed.

(** The loop of [detectSprites] is the traversal, with the bounds stretched
    over the popped cells in order. *)
Lemma island_loop_grow img fuel v q bb :
  island_loop img fuel v q bb =
  match grow (width img) (height img) (above_threshold img) fuel v q with
  | Finished (v', ps) =>
      Finished (v', fold_left (fun bb i =>
                      stretch bb (Z.rem i (width img)) (i / width img)) ps bb)
  | OutOfFuel => OutOfFuel
  end.
Proof.
  revert v q bb. induction fuel as [|fuel IH]; intros v [|c q] bb; try done.
  rewrite island_loop_pop, grow_pop.
  change (detect_neighbor img)
    with (grow_neighbor (width img) (height img) (above_threshold img)).
  destruct (fold_left _ _ _) as [v1 q1]. rewrite IH.
  by destruct (grow _ _ _ _ _ _) as [[v' ps]|].
Qed.

Lemma stretch_fold (xy : Z -> pixel) (ps : list Z) (bb : Bounds) :
  let bb' := fold_left (fun bb i => stretch bb (xy i).1 (xy i).2) ps bb in
  (minX bb' <= minX bb /\ maxX bb <= maxX bb' /\
   minY bb' <= minY bb /\ maxY bb <= maxY bb') /\
  (forall i, i ∈ ps ->
     minX bb' <= (xy i).1 <= maxX bb' /\ minY bb' <= (xy i).2 <= maxY bb') /\
  (minX bb' = minX bb \/ exists i, i ∈ ps /\ (xy i).1 = minX bb') /\
  (maxX bb' = maxX bb \/ exists i, i ∈ ps /\ (xy i).1 = maxX bb') /\
  (minY bb' = minY bb \/ exists i, i ∈ ps /\ (xy i).2 = minY bb') /\
  (maxY bb' = maxY bb \/ exists i, i ∈ ps /\ (xy i).2 = maxY bb').
Proof.
  revert bb. induction ps as [|c ps IH]; intros bb; simpl.
  { split; [lia |]. split; [intros i H; by apply elem_of_nil in H |].
    repeat split; by left. }
  specialize (IH (stretch bb (xy c).1 (xy c).2)). simpl in IH.
  set (bb' := fold_left _ ps _) in *.
  destruct IH as ((H1 & H2 & H3 & H4) & Hin & Ha & Hb & Hc & Hd).
  unfold stretch in H1, H2, H3, H4, Ha, Hb, Hc, Hd; simpl in *.
  pose proof (Z.ltb_spec (xy c).1 (minX bb)) as Sa.
  pose proof (Z.gtb_spec (xy c).1 (maxX bb)) as Sb.
  pose proof (Z.ltb_spec (xy c).2 (minY bb)) as Sc.
  pose proof (Z.gtb_spec (xy c).2 (maxY bb)) as Sd.
  split; [| split; [| split; [| split; [| split]]]].
  - destruct Sa, Sb, Sc, Sd; lia.
  - intros i Hi. apply elem_of_cons in Hi as [->|Hi]; [| by apply Hin].
    destruct Sa, Sb, Sc, Sd; lia.
  - destruct Ha as [Ha|(j & Hj & Ha)]; [| right; exists j; split; [by right | done]].
    destruct Sa; [right; exists c; split; [by left | lia] | by left].
  - destruct Hb as [Hb|(j & Hj & Hb)]; [| right; exists j; split; [by right | done]].
    destruct Sb; [right; exists c; split; [by left | lia] | by left].
  - destruct Hc as [Hc|(j & Hj & Hc)]; [| right; exists j; split; [by right | done]].
    destruct Sc; [right; exists c; split; [by left | lia] | by left].
  - destruct Hd as [Hd|(j & Hj & Hd)]; [| right; exists j; split; [by right | done]].
    destruct Sd; [right; exists c; split; [by left | lia] | by left].
Qed.

Lemma connected_closed (ok S : pixel -> Prop) p :
  S p ->
  (forall q r, connected ok p q -> S q -> adjacent q r -> ok r -> S r) ->
  forall q, connected ok p q -> S q.
Proof.
  intros Hp Hstep q. induction 1 as [|p q r Hpq IH Hadj Hr]; [done |].
  apply (Hstep q r); auto.
Qed.

Lemma grown_mono (ok1 ok2 : pixel -> Prop) p q :
  (forall r, ok1 r -> ok2 r) -> grown ok1 p q -> grown ok2 p q.
Proof.
  intros Hsub. induction 1 as [|p q r _ IH Hadj Hr]; [constructor |].
  exact (grown_step ok2 p q r IH Hadj (Hsub r Hr)).
Qed.

Lemma above_threshold_opaque img q :
  inside img q /\ above_threshold img (index_of img q) = true <-> opaque img q.
Proof.
  unfold opaque, above_threshold.
  destruct (Z.gtb_spec (alpha_at img (index_of img q)) alphaThreshold);
    split; intros [H1 H2]; split; try done; lia.
Qed.

(** One island: started at an unvisited opaque pixel [p] of an array whose
    visited cells are closed under opaque neighbours, the loop ends,
    visits exactly the component of [p] on top of what was visited, and its
    bounds give the tight box of that component. *)
Lemma island_spec img (v : list Z) (p : pixel) :
  length v = Z.to_nat (width img * height img) ->
  opaque img p ->
  rd v (index_of img p) = 0 ->
  (forall r q, inside img r -> rd v (index_of img r) <> 0 -> adjacent r q ->
     opaque img q -> rd v (index_of img q) <> 0) ->
  exists v' bb,
    island_loop img (Z.to_nat (width img * height img))
      (wr v (index_of img p) 1) [index_of img p]
      {| minX := p.1; maxX := p.1; minY := p.2; maxY := p.2 |} = Finished (v', bb) /\
    length v' = length v /\
    (forall q, inside img q ->
       (rd v' (index_of img q) <> 0 <->
        rd v (index_of img q) <> 0 \/ connected (opaque img) p q)) /\
    component_box img p (rect_of_bounds img bb).
Proof.
  intros Hlen Hp Hfree Hclosed.
  assert (Hin : inside img p) by apply Hp.
  pose proof (index_of_inside img p Hin) as Hcell.
  set (idx := index_of img p) in *.
  set (v0 := wr v idx 1).
  assert (Hrange : 0 <= idx < Z.of_nat (length v)) by (rewrite Hlen; lia).
  assert (Hv0 : rd v0 idx = 1) by by apply rd_wr_same.
  destruct (grow_spec img (above_threshold img)
              (Z.to_nat (width img * height img)) v0 [idx])
    as (v' & ps & Hg & Hl & _ & Hv & Hsub & Hps & Hcl).
  { unfold v0. by rewrite length_wr. }
  { intros c Hc. apply list_elem_of_singleton in Hc as ->. split; [done |].
    rewrite Hv0. done. }
  { pose proof (free_cells_wr v idx Hrange Hfree). fold v0 in H.
    pose proof (free_cells_le v). simpl. lia. }
  rewrite island_loop_grow. fold idx v0. rewrite Hg.
  set (bb := fold_left _ ps _).
  exists v', bb. split; [done |]. split; [unfold v0 in Hl; by rewrite Hl, length_wr |].
  assert (Hidx : idx ∈ ps) by (apply Hsub; by left).
  (* every popped cell lies in the component of [p] and was not visited before *)
  assert (HA : forall i, i ∈ ps ->
            connected (opaque img) p (Z.rem i (width img), i / width img) /\
            rd v i = 0).
  { intros i Hi. destruct (Hps i Hi) as (Hci & Horig & c & Hc & Hgrown).
    apply list_elem_of_singleton in Hc as ->. split.
    - apply grown_connected; [done |].
      unfold idx in Hgrown.
      rewrite (rem_index_of img p Hin), (div_index_of img p Hin) in Hgrown.
      destruct p as [x y]. simpl in Hgrown.
      eapply grown_mono; [| exact Hgrown].
      intros r Hr. by apply above_threshold_opaque.
    - destruct Horig as [Horig|Horig].
      + by apply list_elem_of_singleton in Horig as ->.
      + destruct (decide (i = idx)) as [->|Hne]; [done |].
        unfold v0 in Horig. by rewrite rd_wr_other in Horig. }
  (* the popped cells contain the component of [p] *)
  assert (HC : forall q, connected (opaque img) p q -> index_of img q ∈ ps).
  { apply (connected_closed (opaque img) (fun q => index_of img q ∈ ps)); [done |].
    intros q r Hpq IH Hadj Hr.
    assert (Hq : inside img q) by (apply (connected_end _ _ _ Hpq)).
    pose proof (Hcl (index_of img q) r IH) as Hvr.
    rewrite (rem_index_of img q Hq), (div_index_of img q Hq) in Hvr.
    destruct q as [qx qy]. simpl in Hvr.
    specialize (Hvr Hadj (proj2 (above_threshold_opaque img r) Hr)).
    apply Hv in Hvr as [Hvr|Hvr]; [| done].
    destruct (decide (index_of img r = idx)) as [->|Hne]; [done |].
    exfalso. unfold v0 in Hvr. rewrite rd_wr_other in Hvr by done.
    destruct (HA _ IH) as [_ H0]. revert H0.
    apply (Hclosed r (qx, qy)); [apply Hr | done | by apply adjacent_sym |].
    by apply (connected_end _ _ _ Hpq). }
  split.
  - intros q Hq. rewrite Hv. split.
    + intros [H|H].
      * destruct (decide (index_of img q = idx)) as [E|Hne].
        -- apply index_of_inj in E; [| done | done]. subst q.
           right. by constructor.
        -- left. unfold v0 in H. by rewrite rd_wr_other in H.
      * right. destruct (HA _ H) as [Hc _].
        by rewrite (rem_index_of img q Hq), (div_index_of img q Hq),
          <- surjective_pairing in Hc.
    + intros [H|H]; [| right; by apply HC].
      left. destruct (decide (index_of img q = idx)) as [->|Hne]; [by rewrite Hv0 |].
      unfold v0. by rewrite rd_wr_other.
  - (* the box *)
    pose proof (stretch_fold (fun i => (Z.rem i (width img), i / width img)) ps
                  {| minX := p.1; maxX := p.1; minY := p.2; maxY := p.2 |})
      as (Hout & Hbox & Ha & Hb & Hc & Hd).
    simpl in Hout, Hbox, Ha, Hb, Hc, Hd. fold bb in Hout, Hbox, Ha, Hb, Hc, Hd.
    assert (Hpp : connected (opaque img) p p) by by constructor.
    assert (Ea : exists q, connected (opaque img) p q /\ q.1 = minX bb).
    { destruct Ha as [Ha|(i & Hi & Ha)]; [by exists p |].
      eexists; split; [apply (HA i Hi) | done]. }
    assert (Eb : exists q, connected (opaque img) p q /\ q.1 = maxX bb).
    { destruct Hb as [Hb|(i & Hi & Hb)]; [by exists p |].
      eexists; split; [apply (HA i Hi) | done]. }
    assert (Ec : exists q, connected (opaque img) p q /\ q.2 = minY bb).
    { destruct Hc as [Hc|(i & Hi & Hc)]; [by exists p |].
      eexists; split; [apply (HA i Hi) | done]. }
    assert (Ed : exists q, connected (opaque img) p q /\ q.2 = maxY bb).
    { destruct Hd as [Hd|(i & Hi & Hd)]; [by exists p |].
      eexists; split; [apply (HA i Hi) | done]. }
    assert (Hx0 : 0 <= minX bb).
    { destruct Ea as (q & Hq & <-). apply (connected_end _ _ _ Hq). }
    assert (Hx1 : maxX bb < width img).
    { destruct Eb as (q & Hq & <-). apply (connected_end _ _ _ Hq). }
    assert (Hy0 : 0 <= minY bb).
    { destruct Ec as (q & Hq & <-). apply (connected_end _ _ _ Hq). }
    assert (Hy1 : maxY bb < height img).
    { destruct Ed as (q & Hq & <-). apply (connected_end _ _ _ Hq). }
    unfold component_box, rect_of_bounds; simpl.
    rewrite (Z.max_r 0 (minX bb)), (Z.max_r 0 (minY bb)) by lia.
    rewrite (Z.min_r (width img - minX bb)), (Z.min_r (height img - minY bb)) by lia.
    split; [| split; [| split; [| split; [| split]]]]; try done.
    + intros q Hq. pose proof (Hbox _ (HC q Hq)) as Hb'.
      assert (Hqi : inside img q) by apply (connected_end _ _ _ Hq).
      rewrite (rem_index_of img q Hqi), (div_index_of img q Hqi) in Hb'. lia.
    + destruct Eb as (q & Hq & E). exists q. split; [done | lia].
    + destruct Ed as (q & Hq & E). exists q. split; [done | lia].
Qed.

(** ** [detectSprites]: the scan *)

Lemma separated_snoc ok (l : list pixel) s :
  separated ok l -> (forall t, t ∈ l -> ~ connected ok t s) ->
  separated ok (l ++ [s]).
Proof.
  intros Hl Hs i j a b Hi Hj Hc.
  apply lookup_app_Some in Hi as [Hi|[Hi1 Hi2]];
    apply lookup_app_Some in Hj as [Hj|[Hj1 Hj2]].
  - by apply (Hl i j a b).
  - apply list_lookup_singleton_Some in Hj2 as [_ <-].
    destruct (Hs a); [| done]. apply list_elem_of_lookup. by exists i.
  - apply list_lookup_singleton_Some in Hi2 as [_ <-].
    destruct (Hs b); [| by apply connected_sym]. apply list_elem_of_lookup. by exists j.
  - apply list_lookup_singleton_Some in Hi2 as [Hi2 _].
    apply list_lookup_singleton_Some in Hj2 as [Hj2 _]. lia.
Qed.

Lemma scan_pixel_spec img seeds v rects (p : pixel) :
  inside img p -> scan_inv img seeds v rects ->
  exists seeds' v' rects',
    scan_pixel img (Finished (v, rects)) p.1 p.2 = Finished (v', rects') /\
    scan_inv img (seeds ++ seeds') v' rects' /\
    (opaque img p -> exists s, s ∈ seeds ++ seeds' /\ connected (opaque img) s p).
Proof.
  intros Hp (Hlen & Hvis & Hbox & Hsep). unfold scan_pixel.
  change (p.2 * width img + p.1) with (index_of img p).
  destruct (Z.eqb_spec (rd v (index_of img p)) 0) as [Hfree|Hbusy]; simpl.
  2:{ exists [], v, rects. rewrite app_nil_r. split; [done |]. split; [done |].
      intros _. by apply Hvis. }
  destruct (Z.gtb_spec (alpha_at img (index_of img p)) alphaThreshold) as [Ha|Ha].
  2:{ exists [], v, rects. rewrite app_nil_r. split; [done |]. split; [done |].
      intros [_ Hop]. lia. }
  assert (Hop : opaque img p) by (split; [done | lia]).
  destruct (island_spec img v p Hlen Hop Hfree) as (v' & bb & Hrun & Hl & Hv & Hb).
  { intros r q Hr Hvr Hadj Hq. apply Hvis; [apply Hq |].
    apply Hvis in Hvr as (s & Hs & Hc); [| done].
    exists s. split; [done |]. by apply (connected_step _ s r q). }
  destruct p as [x y]. simpl in *. rewrite Hrun.
  exists [(x, y)], v', (rects ++ [rect_of_bounds img bb]).
  split; [done |]. split; [| intros _; exists (x, y); split;
    [apply elem_of_app; right; by left | by constructor]].
  split; [by rewrite Hl |]. split; [| split].
  - intros q Hq. rewrite (Hv q Hq), (Hvis q Hq). split.
    + intros [(s & Hs & Hc)|Hc].
      * exists s. split; [apply elem_of_app; by left | done].
      * exists (x, y). split; [apply elem_of_app; right; by left | done].
    + intros (s & Hs & Hc). apply elem_of_app in Hs as [Hs|Hs]; [left; by exists s |].
      apply list_elem_of_singleton in Hs as ->. by right.
  - apply Forall2_app; [done |]. by constructor.
  - apply separated_snoc; [done |].
    intros t Ht Hc. apply (proj2 (Hvis (x, y) Hp)) in Hfree; [done |]. by exists t.
Qed.

Lemma scan_row_spec img (xs : list Z) (y : Z) seeds v rects :
  0 <= y < height img -> (forall x, x ∈ xs -> 0 <= x < width img) ->
  scan_inv img seeds v rects ->
  exists seeds' v' rects',
    fold_left (fun st x => scan_pixel img st x y) xs (Finished (v, rects))
      = Finished (v', rects') /\
    scan_inv img (seeds ++ seeds') v' rects' /\
    (forall x, x ∈ xs -> opaque img (x, y) ->
       exists s, s ∈ seeds ++ seeds' /\ connected (opaque img) s (x, y)).
Proof.
  intros Hy. revert seeds v rects.
  induction xs as [|x xs IH]; intros seeds v rects Hxs Hinv.
  { exists [], v, rects. rewrite app_nil_r. split; [done |]. split; [done |].
    intros x H. by apply elem_of_nil in H. }
  destruct (scan_pixel_spec img seeds v rects (x, y)) as (s1 & v1 & r1 & E1 & I1 & O1).
  { split; simpl; [apply Hxs; by left | done]. }
  { done. }
  destruct (IH (seeds ++ s1) v1 r1) as (s2 & v2 & r2 & E2 & I2 & O2).
  { intros x' Hx'. apply Hxs. by right. }
  { done. }
  exists (s1 ++ s2), v2, r2. rewrite app_assoc. simpl in *. rewrite E1.
  split; [done |]. split; [done |].
  intros x' Hx' Hop. apply elem_of_cons in Hx' as [->|Hx']; [| by apply O2].
  destruct (O1 Hop) as (s & Hs & Hc). exists s. split; [| done].
  apply elem_of_app. by left.
Qed.

Lemma scan_rows_spec img (ys : list Z) seeds v rects :
  (forall y, y ∈ ys -> 0 <= y < height img) ->
  scan_inv img seeds v rects ->
  exists seeds' v' rects',
    fold_left (scan_row img) ys (Finished (v, rects)) = Finished (v', rects') /\
    scan_inv img (seeds ++ seeds') v' rects' /\
    (forall x y, 0 <= x < width img -> y ∈ ys -> opaque img (x, y) ->
       exists s, s ∈ seeds ++ seeds' /\ connected (opaque img) s (x, y)).
Proof.
  revert seeds v rects.
  induction ys as [|y ys IH]; intros seeds v rects Hys Hinv.
  { exists [], v, rects. rewrite app_nil_r. split; [done |]. split; [done |].
    intros x y _ H. by apply elem_of_nil in H. }
  destruct (scan_row_spec img (seqZ 0 (width img)) y seeds v rects)
    as (s1 & v1 & r1 & E1 & I1 & O1).
  { apply Hys. by left. }
  { intros x Hx. apply elem_of_seqZ in Hx. lia. }
  { done. }
  destruct (IH (seeds ++ s1) v1 r1) as (s2 & v2 & r2 & E2 & I2 & O2).
  { intros y' Hy'. apply Hys. by right. }
  { done. }
  exists (s1 ++ s2), v2, r2. rewrite app_assoc. simpl.
  unfold scan_row at 2. rewrite E1.
  split; [done |]. split; [done |].
  intros x y' Hx Hy' Hop. apply elem_of_cons in Hy' as [->|Hy']; [| by apply O2].
  destruct (O1 x) as (s & Hs & Hc); [apply elem_of_seqZ; lia | done |].
  exists s. split; [| done]. apply elem_of_app. by left.
Qed.

(** The scan ends, and its rects are the boxes of components that are
    pairwise distinct and cover the opaque pixels. *)
Lemma scan_image_spec img :
  exists seeds v rects,
    scan_image img = Finished (v, rects) /\
    Forall2 (component_box img) seeds rects /\
    separated (opaque img) seeds /\
    (forall p, opaque img p ->
       exists s, s ∈ seeds /\ connected (opaque img) s p).
Proof.
  destruct (scan_rows_spec img (seqZ 0 (height img)) []
              (zeros (width img * height img)) [])
    as (seeds & v & rects & E & (_ & _ & Hbox & Hsep) & Hall).
  { intros y Hy. apply elem_of_seqZ in Hy. lia. }
  { split; [apply length_zeros |]. split; [| split].
    - intros q _. rewrite rd_zeros. split; [done |].
      intros (s & Hs & _). by apply elem_of_nil in Hs.
    - constructor.
    - intros i j s t Hi. by rewrite lookup_nil in Hi. }
  exists seeds, v, rects. simpl in *. split; [exact E |].
  split; [done |]. split; [done |].
  intros [x y] [[Hx Hy] Ha]. simpl in *.
  apply Hall; [done | apply elem_of_seqZ; lia | by split].
Qed.

(** ** The sort *)

Lemma insert_by_perm {A} (cmp : A -> A -> Z) a l :
  Permutation (insert_by cmp a l) (a :: l).
Proof.
  induction l as [|b l IH]; simpl; [done |].
  destruct (cmp a b <=? 0); [done |].
  rewrite IH. apply perm_swap.
Qed.

Lemma sort_by_perm {A} (cmp : A -> A -> Z) l : Permutation (sort_by cmp l) l.
Proof.
  induction l as [|a l IH]; simpl; [done |].
  rewrite insert_by_perm. by constructor.
Qed.

(** ** [detectSprites]: the rects are the boxes of the components *)

Lemma component_box_seed img s r : component_box img s r -> opaque img s.
Proof. intros (_ & (p & Hp & _) & _). by apply (connected_start _ _ _ Hp). Qed.

Lemma component_box_move img s p r :
  connected (opaque img) s p -> component_box img s r -> component_box img p r.
Proof.
  intros Hsp (Hin & (a & Ha & Ea) & (b & Hb & Eb) & (c & Hc & Ec) & (d & Hd & Ed) & Hn).
  pose proof (connected_sym _ _ _ Hsp) as Hps.
  unfold component_box. split; [| split; [| split; [| split; [| split]]]]; try done.
  - intros q Hq. apply Hin. by apply (connected_trans _ s p q).
  - exists a. split; [by apply (connected_trans _ p s a) | done].
  - exists b. split; [by apply (connected_trans _ p s b) | done].
  - exists c. split; [by apply (connected_trans _ p s c) | done].
  - exists d. split; [by apply (connected_trans _ p s d) | done].
Qed.

Lemma one_component img (seeds : list pixel) boxes p :
  Forall2 (component_box img) seeds boxes ->
  separated (opaque img) seeds ->
  (exists s, s ∈ seeds /\ connected (opaque img) s p) ->
  (forall q, opaque img q -> connected (opaque img) p q) ->
  exists r, boxes = [r] /\ component_box img p r.
Proof.
  intros Hbox Hsep (s & Hs & Hsp) Hone.
  destruct Hbox as [|s1 r1 seeds boxes H1 Hbox]; [by apply elem_of_nil in Hs |].
  destruct Hbox as [|s2 r2 seeds boxes H2 Hbox].
  - exists r1. split; [done |].
    apply list_elem_of_singleton in Hs as ->. by apply (component_box_move img s1).
  - assert (Hc : connected (opaque img) s1 s2).
    { apply (connected_trans _ s1 p s2).
      - apply connected_sym, Hone. by apply (component_box_seed img s1 r1).
      - apply Hone. by apply (component_box_seed img s2 r2). }
    by pose proof (Hsep 0%nat 1%nat s1 s2 eq_refl eq_refl Hc).
Qed.

(** C1.  [detectSprites] ends, and its result is, up to the order, the
    list of the tight bounding boxes of the 4-connected components of the
    pixels with alpha above 10, one rect per component: there are seed
    pixels, pairwise in different components and reaching every such
    pixel, whose component boxes are the rects.  So a single blob gives
    exactly its tight box, a single opaque pixel gives a 1x1 rect at that
    pixel, and an image whose alphas are all at most 10 gives no rect. *)
Theorem detectSprites_components (img : Image) :
  (exists seeds boxes rects,
     detectSprites img = Finished rects /\
     Permutation boxes rects /\
     Forall2 (component_box img) seeds boxes /\
     separated (opaque img) seeds /\
     (forall p, opaque img p ->
        exists s, s ∈ seeds /\ connected (opaque img) s p)) /\
  (forall p, opaque img p ->
     (forall q, opaque img q -> connected (opaque img) p q) ->
     exists r, detectSprites img = Finished [r] /\ component_box img p r) /\
  (forall p, opaque img p -> (forall q, opaque img q -> q = p) ->
     detectSprites img =
     Finished [{| rx := p.1; ry := p.2; rwidth := 1; rheight := 1; rpath := None |}]) /\
  ((forall p, inside img p -> alpha_at img (index_of img p) <= 10) ->
   detectSprites img = Finished []).
Proof.
  destruct (scan_image_spec img) as (seeds & v & boxes & E & Hbox & Hsep & Hall).
  assert (Hrun : detectSprites img = Finished (sort_by compare_rects boxes))
    by (unfold detectSprites; by rewrite E).
  assert (Hblob : forall p, opaque img p ->
            (forall q, opaque img q -> connected (opaque img) p q) ->
            exists r, detectSprites img = Finished [r] /\ component_box img p r).
  { intros p Hp Hone.
    destruct (one_component img seeds boxes p Hbox Hsep (Hall p Hp) Hone)
      as (r & -> & Hr).
    exists r. by split. }
  split; [| split; [| split]].
  - exists seeds, boxes, (sort_by compare_rects boxes).
    split; [done |]. split; [symmetry; apply sort_by_perm | done].
  - exact Hblob.
  - intros p Hp Honly.
    destruct (Hblob p Hp) as (r & -> & Hin & (a & Ha & Ea) & (b & Hb & Eb)
                                & (c & Hc & Ec) & (d & Hd & Ed) & Hn).
    { intros q Hq. rewrite (Honly q Hq). by constructor. }
    apply connected_end, Honly in Ha, Hb, Hc, Hd. subst a b c d.
    destruct r as [x y w h pa]. simpl in *. subst pa.
    do 2 f_equal. f_equal; lia.
  - intros Hdim.
    destruct Hbox as [|s r seeds boxes Hs _]; [done |].
    apply component_box_seed in Hs as [Hin Ha].
    specialize (Hdim s Hin). unfold alphaThreshold in Ha. lia.
Qed.

Lemma detectSprites_components_witness :
  exists r, detectSprites pair_row = Finished [r] /\ component_box pair_row (0, 0) r.
Proof.
  destruct (detectSprites_components pair_row) as (_ & Hblob & _).
  assert (Hop : forall x, x = 0 \/ x = 1 -> opaque pair_row (x, 0)).
  { intros x [->| ->]; (split; [unfold inside, width, height; simpl; lia | by vm_compute]). }
  apply Hblob; [apply Hop; by left |].
  intros [x y] [[Hx Hy] _]. unfold width, height in Hx, Hy. simpl in Hx, Hy.
  assert (y = 0) as -> by lia.
  assert (x = 0 \/ x = 1) as [->| ->] by lia.
  - constructor. apply Hop. by left.
  - apply (connected_step _ (0, 0) (0, 0) (1, 0)).
    + constructor. apply Hop. by left.
    + unfold adjacent. simpl. lia.
    + apply Hop. by right.
Defined.

(** ** [detectSprites]: the order of the rects *)

Lemma compare_rects_antisym a b : compare_rects b a = - compare_rects a b.
Proof.
  unfold compare_rects.
  replace (ry b - ry a) with (- (ry a - ry b)) by lia. rewrite Z.abs_opp.
  destruct (Z.abs (ry a - ry b) >? 10); lia.
Qed.

Lemma compare_rects_reading_order a b :
  compare_rects a b <= 0 <-> reading_order a b.
Proof.
  unfold compare_rects, reading_order.
  destruct (Z.gtb_spec (Z.abs (ry a - ry b)) 10),
    (Z.leb_spec (Z.abs (ry a - ry b)) 10); lia.
Qed.

Lemma compare_rects_refl a : compare_rects a a = 0.
Proof. unfold compare_rects. rewrite !Z.sub_diag. reflexivity. Qed.

Lemma pairwise_impl {A} (R S : A -> A -> Prop) l :
  (forall x y, R x y -> S x y) -> pairwise R l -> pairwise S l.
Proof.
  intros HRS. induction 1 as [|a l Ha _ IH]; constructor; [| done].
  eapply Forall_impl; [exact Ha | apply HRS].
Qed.

(** [compare_rects] is consistent on a list as soon as reading order is
    transitive on it: the other two conditions always hold. *)
Lemma compare_rects_consistent l :
  transitive_on reading_order l -> consistent compare_rects l.
Proof.
  intros Ht a b c Ha Hb Hc. split; [apply compare_rects_refl |]. split.
  - rewrite (compare_rects_antisym a b). lia.
  - rewrite !compare_rects_reading_order. by apply Ht.
Qed.

(** Rows that do not chain into one another make reading order
    transitive. *)
Lemma rows_apart_transitive l :
  rows_apart l -> transitive_on reading_order l.
Proof.
  intros Hr a b c Ha Hb Hc. unfold reading_order.
  pose proof (Hr a b c Ha Hb Hc) as H1.
  pose proof (Hr b a c Hb Ha Hc) as H2.
  pose proof (Hr a c b Ha Hc Hb) as H3.
  destruct (Z.leb_spec (Z.abs (ry a - ry b)) 10),
    (Z.leb_spec (Z.abs (ry b - ry c)) 10),
    (Z.leb_spec (Z.abs (ry a - ry c)) 10); lia.
Qed.

Lemma consistent_sub cmp l l' :
  (forall x, x ∈ l' -> x ∈ l) -> consistent cmp l -> consistent cmp l'.
Proof. intros Hsub H a b c Ha Hb Hc. apply H; by apply Hsub. Qed.

(** The insertion sort meets the standard. *)
Lemma insert_by_pairwise (cmp : Rect -> Rect -> Z) a l :
  consistent cmp (a :: l) ->
  pairwise (fun x y => cmp x y <= 0) l ->
  pairwise (fun x y => cmp x y <= 0) (insert_by cmp a l).
Proof.
  intros Hc. induction 1 as [|b l Hb Hl IH]; simpl.
  - constructor; constructor.
  - destruct (Z.leb_spec (cmp a b) 0) as [Hab|Hab].
    + constructor; [| by constructor].
      constructor; [done |].
      apply Forall_forall. intros c Hin.
      destruct (Hc a b c) as (_ & _ & Htr);
        [by left | right; by left | by do 2 right |].
      apply Htr; [done |]. by eapply (proj1 (Forall_forall _ _) Hb).
    + constructor.
      * apply Forall_forall. intros c Hin.
        rewrite insert_by_perm in Hin. apply elem_of_cons in Hin as [->|Hin].
        -- destruct (Hc b a a) as (_ & Hs & _);
             [right; by left | by left | by left |]. lia.
        -- by eapply (proj1 (Forall_forall _ _) Hb).
      * apply IH. eapply consistent_sub; [| exact Hc].
        intros x Hx. apply elem_of_cons in Hx as [->|Hx];
          [by left | by do 2 right].
Qed.

Lemma sort_by_pairwise (cmp : Rect -> Rect -> Z) l :
  consistent cmp l -> pairwise (fun x y => cmp x y <= 0) (sort_by cmp l).
Proof.
  induction l as [|a l IH]; intros Hc; simpl; [constructor |].
  apply insert_by_pairwise.
  - eapply consistent_sub; [| exact Hc].
    intros x Hx. apply elem_of_cons in Hx as [->|Hx]; [by left |].
    right. by rewrite sort_by_perm in Hx.
  - apply IH. eapply consistent_sub; [| exact Hc]. intros x Hx. by right.
Qed.

Lemma sort_by_conforming : conforming sort_by.
Proof.
  split; [intros cmp l; apply sort_by_perm | apply sort_by_pairwise].
Qed.

(** On an engine that meets the standard the rects come out with every
    pair in reading order, when reading order is transitive on them. *)
Lemma conforming_reading_order (sort : Sorter) boxes :
  conforming sort ->
  transitive_on reading_order (sort compare_rects boxes) ->
  pairwise reading_order (sort compare_rects boxes).
Proof.
  intros [Hperm Hsort] Ht.
  eapply pairwise_impl; [intros x y; apply compare_rects_reading_order |].
  apply Hsort, compare_rects_consistent.
  intros a b c Ha Hb Hc. apply Ht; by rewrite (Hperm compare_rects boxes).
Qed.

(** No arrangement of the three rects of [staircase] has every pair in
    reading order, because the comparison is not transitive on them. *)
Remark staircase_unorderable (l : list Rect) :
  Permutation
    [ {| rx := 2; ry := 0; rwidth := 1; rheight := 1; rpath := None |};
      {| rx := 1; ry := 6; rwidth := 1; rheight := 1; rpath := None |};
      {| rx := 0; ry := 12; rwidth := 1; rheight := 1; rpath := None |} ] l ->
  ~ pairwise reading_order l.
Proof.
  intros Hp Hl. apply permutations_Permutation in Hp. vm_compute in Hp.
  repeat (apply elem_of_cons in Hp as [->|Hp]); [..| by apply elem_of_nil in Hp].
  all: repeat match goal with
       | H : pairwise _ (_ :: _) |- _ => inversion H; clear H; subst
       | H : Forall _ (_ :: _) |- _ => inversion H; clear H; subst
       end.
  all: match goal with
       | H : reading_order _ _ |- _ => vm_compute in H; by apply H
       end.
Qed.

Lemma scan_staircase :
  exists visited,
    scan_image staircase =
      Finished
        (visited,
         [ {| rx := 2; ry := 0; rwidth := 1; rheight := 1; rpath := None |};
           {| rx := 1; ry := 6; rwidth := 1; rheight := 1; rpath := None |};
           {| rx := 0; ry := 12; rwidth := 1; rheight := 1; rpath := None |} ]).
Proof. eexists. vm_compute. reflexivity. Qed.

Lemma two_rows_apart :
  rows_apart
    [ {| rx := 0; ry := 3; rwidth := 1; rheight := 1; rpath := None |};
      {| rx := 2; ry := 0; rwidth := 1; rheight := 1; rpath := None |};
      {| rx := 1; ry := 15; rwidth := 1; rheight := 1; rpath := None |} ].
Proof.
  intros a b c Ha Hb Hc.
  repeat (apply elem_of_cons in Ha as [->|Ha]); [..| by apply elem_of_nil in Ha].
  all: repeat (apply elem_of_cons in Hb as [->|Hb]); [..| by apply elem_of_nil in Hb].
  all: repeat (apply elem_of_cons in Hc as [->|Hc]); [..| by apply elem_of_nil in Hc].
  all: simpl; lia.
Qed.

(** C2, as stated, fails, and on every engine: [sort] can only rearrange
    the rects, and the three rects of [staircase] have no arrangement in
    which every two are in reading order.  Each is on the row of the next
    (their [y] differ by 6), the first and the last are not (12), and the
    [x] go down as the [y] go up. *)
Lemma detectSprites_not_pairwise :
  ~ exists (sort : Sorter) (rects : list Rect),
      rearranges sort /\
      detectSprites_with sort staircase = Finished rects /\
      pairwise reading_order rects.
Proof.
  intros (sort & rects & Hperm & E & Hpw).
  unfold detectSprites_with in E.
  destruct scan_staircase as [visited Hs]. rewrite Hs in E.
  injection E as <-.
  eapply staircase_unorderable; [| exact Hpw].
  symmetry. apply Hperm.
Qed.

(** C2, amended.  On every engine whose [sort] meets the standard,
    [detectSprites] ends, and every two rects [a] before [b] of its
    result are in reading order ([a.x <= b.x] when their [y] differ by at
    most 10, [a.y <= b.y] otherwise) whenever reading order is transitive
    on the rects of the result, and so whenever their rows do not chain
    into one another.  A result of exactly two rects is always ascending
    by [x] when the two are on one row and ascending by [y], whatever
    their [x], when they are not.  Where reading order is not transitive
    on the rects the order is the engine's, and nothing is stated. *)
Theorem detectSprites_reading_order (sort : Sorter) (img : Image) :
  conforming sort ->
  exists rects,
    detectSprites_with sort img = Finished rects /\
    (transitive_on reading_order rects -> pairwise reading_order rects) /\
    (rows_apart rects -> pairwise reading_order rects) /\
    (forall a b, rects = [a; b] ->
       (Z.abs (ry a - ry b) <= 10 -> rx a <= rx b) /\
       (Z.abs (ry a - ry b) > 10 -> ry a <= ry b)).
Proof.
  intros Hsort.
  destruct (scan_image_spec img) as (seeds & v & boxes & E & _).
  exists (sort compare_rects boxes).
  split; [unfold detectSprites_with; by rewrite E |].
  assert (Hpw : transitive_on reading_order (sort compare_rects boxes) ->
                pairwise reading_order (sort compare_rects boxes))
    by (by apply conforming_reading_order).
  split; [done |].
  split; [intros Hr; by apply Hpw, rows_apart_transitive |].
  intros a b Eab. rewrite Eab in Hpw.
  assert (Hab : reading_order a b).
  { assert (Ht : transitive_on reading_order [a; b]).
    { apply rows_apart_transitive. intros x y z Hx Hy Hz.
      apply elem_of_cons in Hx as [->|Hx];
        [| apply list_elem_of_singleton in Hx as ->].
      all: apply elem_of_cons in Hy as [->|Hy];
        [| apply list_elem_of_singleton in Hy as ->].
      all: apply elem_of_cons in Hz as [->|Hz];
        [| apply list_elem_of_singleton in Hz as ->].
      all: lia. }
    specialize (Hpw Ht).
    inversion Hpw as [|a' l Ha _]; subst.
    by inversion Ha. }
  unfold reading_order in Hab.
  destruct (Z.leb_spec (Z.abs (ry a - ry b)) 10); lia.
Qed.

Lemma detectSprites_reading_order_witness :
  exists rects,
    detectSprites_with sort_by two_rows = Finished rects /\
    pairwise reading_order rects.
Proof.
  destruct (detectSprites_reading_order sort_by two_rows sort_by_conforming)
    as (rects & E & _ & Hrows & _).
  exists rects. split; [exact E |].
  apply Hrows. vm_compute in E. injection E as <-. exact two_rows_apart.
Defined.

(** ** [performFloodFill] *)

Lemma Qltb_lt a b : Qltb a b = true <-> (a < b)%Q.
Proof.
  unfold Qltb. rewrite negb_true_iff, <- not_true_iff_false, Qle_bool_iff.
  split; [apply Qnot_le_lt | apply Qlt_not_le].
Qed.

Lemma bounds_test img x y :
  Qltb x 0 || Qle_bool (inject_Z (width img)) x
  || Qltb y 0 || Qle_bool (inject_Z (height img)) y = true
  <-> out_of_bounds img x y.
Proof.
  unfold out_of_bounds.
  rewrite !orb_true_iff, !Qltb_lt, !Qle_bool_iff. tauto.
Qed.

Lemma floor_inside img x y :
  ~ out_of_bounds img x y -> inside img (Qfloor x, Qfloor y).
Proof.
  unfold out_of_bounds, inside. intros H. simpl.
  assert (Hx0 : (0 <= x)%Q) by (apply Qnot_lt_le; tauto).
  assert (Hx1 : (x < inject_Z (width img))%Q) by (apply Qnot_le_lt; tauto).
  assert (Hy0 : (0 <= y)%Q) by (apply Qnot_lt_le; tauto).
  assert (Hy1 : (y < inject_Z (height img))%Q) by (apply Qnot_le_lt; tauto).
  apply Qfloor_resp_le in Hx0, Hy0. change (Qfloor 0) with 0 in Hx0, Hy0.
  pose proof (Qle_lt_trans _ _ _ (Qfloor_le x) Hx1) as Hx. rewrite <- Zlt_Qlt in Hx.
  pose proof (Qle_lt_trans _ _ _ (Qfloor_le y) Hy1) as Hy. rewrite <- Zlt_Qlt in Hy.
  lia.
Qed.

Lemma fill_loop_pop img sR sG sB tol fuel v m c q :
  fill_loop img sR sG sB tol (S fuel) v m (c :: q) =
  let '(v1, m1, q1) :=
    fold_left (fill_neighbor img sR sG sB tol)
      (neighbors (Z.rem c (width img)) (c / width img)) (v, m, q) in
  fill_loop img sR sG sB tol fuel v1 m1 q1.
Proof. reflexivity. Qed.

(** The mask is written where and when the visited array is. *)
Lemma fill_neighbors_grow img sR sG sB tol (ns : list pixel) v q :
  fold_left (fill_neighbor img sR sG sB tol) ns (v, v, q) =
  let '(v', q') :=
    fold_left (grow_neighbor (width img) (height img) (matches img sR sG sB tol))
      ns (v, q) in
  (v', v', q').
Proof.
  revert v q. induction ns as [|[nx ny] ns IH]; intros v q; [done |].
  simpl fold_left. unfold matches at 2.
  destruct (in_bounds _ _ nx ny); [| apply IH].
  destruct (rd v _ =? 0); [| apply IH].
  destruct (_ && _); apply IH.
Qed.

Lemma fill_loop_grow img sR sG sB tol fuel v q :
  fill_loop img sR sG sB tol fuel v v q =
  match grow (width img) (height img) (matches img sR sG sB tol) fuel v q with
  | Finished (v', _) => Finished (v', v')
  | OutOfFuel => OutOfFuel
  end.
Proof.
  revert v q. induction fuel as [|fuel IH]; intros v [|c q]; try done.
  rewrite fill_loop_pop, grow_pop, fill_neighbors_grow.
  destruct (fold_left _ _ _) as [v1 q1]. rewrite IH.
  by destruct (grow _ _ _ _ _ _) as [[v' ps]|].
Qed.

Lemma grown_closed (ok S : pixel -> Prop) p :
  S p ->
  (forall q r, S q -> adjacent q r -> ok r -> S r) ->
  forall q, grown ok p q -> S q.
Proof.
  intros Hp Hstep q. induction 1 as [|p q r Hpq IH Hadj Hr]; [done |].
  apply (Hstep q r); auto.
Qed.

Lemma matches_similar img (seed q : pixel) tol :
  inside img q /\
  matches img (red_at img (index_of img seed)) (green_at img (index_of img seed))
    (blue_at img (index_of img seed)) tol (index_of img q) = true
  <-> similar img seed tol q.
Proof.
  unfold similar, matches. rewrite andb_true_iff, Z.leb_le.
  destruct (Z.gtb_spec (alpha_at img (index_of img q)) 0);
    split; intros (H1 & H2 & H3);
    (split; [exact H1 | split; first [done | lia]]).
Qed.

(** What [performFloodFill] does: [None] for a seed outside the image or
    on a pixel of alpha 0; otherwise the loop ends and the mask has one
    entry per pixel, each 0 or 1, with 1 exactly on the pixels grown from
    the truncated seed through similar pixels. *)
Lemma performFloodFill_spec img (x y : Q) (tol : Z) :
  let seed : pixel := (Qfloor x, Qfloor y) in
  (out_of_bounds img x y \/ alpha_at img (index_of img seed) = 0 ->
   performFloodFill img x y tol = Finished None) /\
  (~ out_of_bounds img x y -> alpha_at img (index_of img seed) <> 0 ->
   exists mask,
     performFloodFill img x y tol = Finished (Some mask) /\
     length mask = Z.to_nat (width img * height img) /\
     bits mask /\
     (forall p, inside img p ->
        (rd mask (index_of img p) = 1 <-> grown (similar img seed tol) seed p))).
Proof.
  intros seed. unfold performFloodFill.
  change (Qfloor y * width img + Qfloor x) with (index_of img seed).
  destruct (Qltb x 0 || _ || _ || _) eqn:Hb.
  { apply bounds_test in Hb. split; [done | tauto]. }
  assert (Hnb : ~ out_of_bounds img x y).
  { intros H. apply bounds_test in H. congruence. }
  destruct (Z.eqb_spec (alpha_at img (index_of img seed)) 0) as [Ha|Ha].
  { split; [done | tauto]. }
  split; [tauto |]. intros _ _.
  pose proof (floor_inside img x y Hnb) as Hin. fold seed in Hin.
  pose proof (index_of_inside img seed Hin) as Hcell.
  set (idx := index_of img seed) in *.
  set (N := width img * height img) in *.
  set (v0 := wr (zeros N) idx 1).
  assert (Hlen0 : length (zeros N) = Z.to_nat N) by apply length_zeros.
  assert (Hrange : 0 <= idx < Z.of_nat (length (zeros N))) by (rewrite Hlen0; lia).
  assert (Hv0 : rd v0 idx = 1) by by apply rd_wr_same.
  rewrite fill_loop_grow.
  destruct (grow_spec img
              (matches img (red_at img idx) (green_at img idx) (blue_at img idx) tol)
              (Z.to_nat N) v0 [idx])
    as (v' & ps & Hg & Hl & Hbits & Hv & Hsub & Hps & Hcl).
  { unfold v0. by rewrite length_wr. }
  { intros c Hc. apply list_elem_of_singleton in Hc as ->. split; [done |].
    rewrite Hv0. done. }
  { pose proof (free_cells_wr (zeros N) idx Hrange (rd_zeros N idx)) as H.
    fold v0 in H. pose proof (free_cells_le (zeros N)). simpl. lia. }
  fold N. rewrite Hg. exists v'. split; [done |].
  split; [unfold v0 in Hl; by rewrite Hl, length_wr |].
  assert (Hb' : bits v') by (apply Hbits, bits_wr, bits_zeros).
  split; [done |].
  assert (Hidx : idx ∈ ps) by (apply Hsub; by left).
  assert (Hmark : forall i, rd v' i <> 0 <-> i ∈ ps).
  { intros i. rewrite Hv. split; [| by right]. intros [H|H]; [| done].
    destruct (decide (i = idx)) as [->|Hne]; [done |].
    unfold v0 in H. by rewrite rd_wr_other, rd_zeros in H. }
  intros p Hp.
  assert (Hone : rd v' (index_of img p) = 1 <-> index_of img p ∈ ps).
  { rewrite <- Hmark. destruct (Hb' (index_of img p)) as [E|E]; rewrite E; done. }
  rewrite Hone. split.
  - intros Hi. destruct (Hps _ Hi) as (_ & _ & c & Hc & Hgrown).
    apply list_elem_of_singleton in Hc as ->.
    unfold idx in Hgrown.
    rewrite (rem_index_of img seed Hin), (div_index_of img seed Hin),
      (rem_index_of img p Hp), (div_index_of img p Hp),
      <- !surjective_pairing in Hgrown.
    eapply grown_mono; [| exact Hgrown].
    intros r Hr. by apply matches_similar.
  - intros Hgrown.
    apply (grown_closed (similar img seed tol)
             (fun q => inside img q /\ index_of img q ∈ ps) seed); [done | | done].
    intros q r [Hq Hi] Hadj Hr. split; [apply Hr |].
    apply Hmark, (Hcl (index_of img q) r Hi); [| by apply matches_similar].
    by rewrite (rem_index_of img q Hq), (div_index_of img q Hq),
      <- surjective_pairing.
Qed.

Lemma manhattan_self r g b : manhattan r g b r g b = 0.
Proof. unfold manhattan. lia. Qed.

(** C3, as stated, fails for a negative tolerance: the seed is marked
    although no pixel, the seed included, is within the tolerance, so that
    no path of such pixels exists. *)
Lemma performFloodFill_negative_tolerance :
  ~ (forall img (x y : Q) (tol : Z) mask p,
       ~ out_of_bounds img x y ->
       alpha_at img (index_of img (Qfloor x, Qfloor y)) > 0 ->
       performFloodFill img x y tol = Finished (Some mask) ->
       inside img p ->
       (rd mask (index_of img p) = 1 <->
        connected (similar img (Qfloor x, Qfloor y) tol) (Qfloor x, Qfloor y) p)).
Proof.
  intros H.
  assert (Hb : ~ out_of_bounds dot 0 0).
  { intros [Hb|[Hb|[Hb|Hb]]]; vm_compute in Hb; try done; by apply Hb. }
  assert (Ha : alpha_at dot (index_of dot (Qfloor 0, Qfloor 0)) > 0) by done.
  assert (Hrun : performFloodFill dot 0 0 (-1) = Finished (Some [1])) by done.
  assert (Hin : inside dot (0, 0)) by (unfold inside, width, height; simpl; lia).
  destruct (H dot 0%Q 0%Q (-1) [1] (0, 0) Hb Ha Hrun Hin) as [Hmark _].
  apply connected_start in Hmark; [| done].
  destruct Hmark as (_ & _ & Hd). by vm_compute in Hd.
Qed.

(** C3, amended.  For a seed inside the image on a pixel of alpha above 0,
    and for every tolerance, [performFloodFill] returns a mask of zeros
    and ones that holds 1 at a pixel exactly when a 4-connected path leads
    to it from the truncated seed on which every pixel after the seed has
    alpha above 0 and a Manhattan RGB distance to the seed pixel's colour
    of at most the tolerance.  For a tolerance of at least 0 the seed
    passes that test as well, and the path is one on which every pixel
    passes it. *)
Theorem performFloodFill_mask img (x y : Q) (tol : Z) :
  ~ out_of_bounds img x y ->
  alpha_at img (index_of img (Qfloor x, Qfloor y)) > 0 ->
  exists mask,
    performFloodFill img x y tol = Finished (Some mask) /\
    bits mask /\
    (forall p, inside img p ->
       (rd mask (index_of img p) = 1 <->
        grown (similar img (Qfloor x, Qfloor y) tol) (Qfloor x, Qfloor y) p)) /\
    (0 <= tol ->
     forall p, inside img p ->
       (rd mask (index_of img p) = 1 <->
        connected (similar img (Qfloor x, Qfloor y) tol) (Qfloor x, Qfloor y) p)).
Proof.
  intros Hb Ha.
  destruct (performFloodFill_spec img x y tol) as [_ H].
  destruct (H Hb) as (mask & E & _ & Hbits & Hmask); [lia |].
  exists mask. split; [done |]. split; [done |]. split; [done |].
  intros Htol p Hp. rewrite (Hmask p Hp). split; [| apply connected_grown].
  apply grown_connected. split; [by apply floor_inside |]. split; [done |].
  rewrite manhattan_self. done.
Qed.

Lemma performFloodFill_mask_witness :
  exists mask,
    performFloodFill pair_row (3 # 2) 0 30 = Finished (Some mask) /\
    forall p, inside pair_row p ->
      (rd mask (index_of pair_row p) = 1 <->
       connected (similar pair_row (Qfloor (3 # 2), Qfloor 0) 30)
         (Qfloor (3 # 2), Qfloor 0) p).
Proof.
  destruct (performFloodFill_mask pair_row (3 # 2) 0 30)
    as (mask & E & _ & _ & Hmask).
  - intros [Hb|[Hb|[Hb|Hb]]]; vm_compute in Hb; try done; by apply Hb.
  - by vm_compute.
  - exists mask. split; [done |]. apply Hmask. lia.
Defined.

Lemma out_of_bounds_or_not img x y :
  out_of_bounds img x y \/ ~ out_of_bounds img x y.
Proof.
  destruct (Qltb x 0 || Qle_bool (inject_Z (width img)) x
            || Qltb y 0 || Qle_bool (inject_Z (height img)) y) eqn:E.
  - left. by apply bounds_test.
  - right. intros H. apply bounds_test in H. congruence.
Qed.



(** C10.  A mask returned by [performFloodFill] holds 1 at the truncated
    seed, whatever the tolerance; so it is never all zeros. *)
Theorem performFloodFill_marks_seed img (x y : Q) (tol : Z) (mask : list Z) :
  performFloodFill img x y tol = Finished (Some mask) ->
  rd mask (index_of img (Qfloor x, Qfloor y)) = 1 /\
  ~ Forall (fun z => z = 0) mask.
Proof.
  intros E.
  destruct (performFloodFill_spec img x y tol) as [Hnone Hsome].
  destruct (out_of_bounds_or_not img x y) as [Hb|Hb].
  { rewrite Hnone in E by by left. done. }
  destruct (decide (alpha_at img (index_of img (Qfloor x, Qfloor y)) = 0)) as [Ha|Ha].
  { rewrite Hnone in E by by right. done. }
  destruct (Hsome Hb Ha) as (mask' & E' & _ & _ & Hmask).
  rewrite E' in E. injection E as ->.
  assert (Hseed : rd mask (index_of img (Qfloor x, Qfloor y)) = 1).
  { apply Hmask; [by apply floor_inside | constructor]. }
  split; [done |]. intros Hall.
  unfold rd in Hseed. destruct (_ <? 0); [done |].
  destruct (mask !! _) as [z|] eqn:Ez; simpl in Hseed; [| done].
  rewrite Forall_lookup in Hall. specialize (Hall _ _ Ez). simpl in Hall. lia.
Qed.

Lemma performFloodFill_marks_seed_witness :
  rd [1; 0] (index_of red_blue (Qfloor 0, Qfloor 0)) = 1 /\
  ~ Forall (fun z => z = 0) [1; 0].
Proof. by apply (performFloodFill_marks_seed red_blue 0 0 0 [1; 0]). Defined.

(** ** [removeBackgroundFromContext] *)

Lemma list_ind4 (P : list Z -> Prop) :
  P [] -> (forall a, P [a]) -> (forall a b, P [a; b]) ->
  (forall a b c, P [a; b; c]) ->
  (forall r g b a rest, P rest -> P (r :: g :: b :: a :: rest)) ->
  forall l, P l.
Proof.
  intros H0 H1 H2 H3 H4.
  fix IH 1. intros [|r [|g [|b [|a rest]]]];
    [exact H0 | apply H1 | apply H2 | apply H3 | apply H4, IH].
Qed.

Lemma chroma_loop_pixel tol bg r g b a rest :
  chroma_loop tol bg (r :: g :: b :: a :: rest) =
  r :: g :: b ::
    (if a =? 0 then a
     else if manhattan r g b (cr bg) (cg bg) (cb bg) <=? tol then 0 else a)
    :: chroma_loop tol bg rest.
Proof. simpl. destruct (a =? 0); [done |]. by destruct (_ <=? tol). Qed.

Lemma chroma_loop_keyed tol bg d :
  pixels_of (chroma_loop tol bg d) = map (keyed_pixel tol bg) (pixels_of d).
Proof.
  induction d as [| | | |r g b a rest IH] using list_ind4; try done.
  rewrite chroma_loop_pixel. simpl pixels_of. rewrite IH. simpl. f_equal.
  destruct (a =? 0); [done |]. by destruct (_ <=? tol).
Qed.

Lemma chroma_loop_length tol bg d : length (chroma_loop tol bg d) = length d.
Proof.
  induction d as [| | | |r g b a rest IH] using list_ind4; try done.
  rewrite chroma_loop_pixel. simpl. by rewrite IH.
Qed.

Lemma chroma_loop_idempotent tol bg d :
  chroma_loop tol bg (chroma_loop tol bg d) = chroma_loop tol bg d.
Proof.
  induction d as [| | | |r g b a rest IH] using list_ind4; try done.
  rewrite !chroma_loop_pixel, IH. do 3 f_equal.
  destruct (Z.eqb_spec a 0) as [->|Ha]; [done |].
  destruct (_ <=? tol) eqn:E; [done |].
  destruct (Z.eqb_spec a 0); [lia | done].
Qed.

(** C8.  The chroma key, for every buffer, background colour and
    tolerance: a pixel of alpha 0 is left as it is; a pixel of alpha above 0
    keeps its colour and has its alpha set to 0 exactly when its Manhattan
    RGB distance to the background colour is at most the tolerance, and is
    left as it is otherwise; the buffer keeps its length; keying twice is
    keying once.  [removeBackgroundFromContext] is the chroma key at
    tolerance 30. *)
Theorem chromaKey_skips_transparent (tol : Z) (bg : Color) (d : list Z) :
  (forall k r g b a, pixels_of d !! k = Some (r, g, b, a) ->
     (a = 0 -> pixels_of (chroma_loop tol bg d) !! k = Some (r, g, b, a)) /\
     (a > 0 -> manhattan r g b (cr bg) (cg bg) (cb bg) <= tol ->
      pixels_of (chroma_loop tol bg d) !! k = Some (r, g, b, 0)) /\
     (a > 0 -> manhattan r g b (cr bg) (cg bg) (cb bg) > tol ->
      pixels_of (chroma_loop tol bg d) !! k = Some (r, g, b, a))) /\
  length (chroma_loop tol bg d) = length d /\
  chroma_loop tol bg (chroma_loop tol bg d) = chroma_loop tol bg d /\
  removeBackgroundFromContext d bg = chroma_loop 30 bg d /\
  removeBackgroundFromContext (removeBackgroundFromContext d bg) bg
  = removeBackgroundFromContext d bg.
Proof.
  split; [| split; [apply chroma_loop_length |
            split; [apply chroma_loop_idempotent |
            split; [done | apply chroma_loop_idempotent]]]].
  intros k r g b a Hk. rewrite chroma_loop_keyed, list_lookup_fmap, Hk. simpl.
  destruct (Z.eqb_spec a 0) as [->|Ha].
  { split; [done |]. split; intros; lia. }
  destruct (Z.leb_spec (manhattan r g b (cr bg) (cg bg) (cb bg)) tol).
  - split; [done |]. split; [done |]. intros; lia.
  - split; [done |]. split; [intros; lia | done].
Qed.

Lemma chromaKey_skips_transparent_witness :
  pixels_of (chroma_loop 30 white near_white) !! 0%nat = Some (250, 250, 250, 0) /\
  pixels_of (chroma_loop 30 white near_white) !! 2%nat = Some (9, 9, 9, 0).
Proof.
  destruct (chromaKey_skips_transparent 30 white near_white) as (Hpix & _).
  split.
  - destruct (Hpix 0%nat 250 250 250 255 eq_refl) as (_ & Hkey & _).
    apply Hkey; [lia | by vm_compute].
  - destruct (Hpix 2%nat 9 9 9 0 eq_refl) as (Hskip & _).
    by apply Hskip.
Defined.

(** ** [applyTransparency] *)

Lemma rd_wr_zero d k : rd (wr d k 0) k = 0.
Proof.
  destruct (decide (0 <= k < Z.of_nat (length d))).
  - by apply rd_wr_same.
  - apply rd_outside. by rewrite length_wr.
Qed.

Lemma clear_alpha_keeps_zero mask d i k :
  rd d k = 0 -> rd (clear_alpha mask d i) k = 0.
Proof.
  intros H. unfold clear_alpha. destruct (rd mask i =? 1); [| done].
  destruct (decide (i * 4 + 3 = k)) as [<-|Hne]; [apply rd_wr_zero |].
  by rewrite rd_wr_other.
Qed.

Lemma clear_alphas_keep_zero mask (l : list Z) d k :
  rd d k = 0 -> rd (fold_left (clear_alpha mask) l d) k = 0.
Proof.
  revert d. induction l as [|i l IH]; intros d H; [done |].
  simpl. by apply IH, clear_alpha_keeps_zero.
Qed.

Lemma clear_alphas_hit mask (l : list Z) d i :
  i ∈ l -> rd mask i = 1 ->
  rd (fold_left (clear_alpha mask) l d) (i * 4 + 3) = 0.
Proof.
  revert d. induction l as [|j l IH]; intros d Hi Hm; [by apply elem_of_nil in Hi |].
  simpl. apply elem_of_cons in Hi as [<-|Hi]; [| by apply IH].
  apply clear_alphas_keep_zero. unfold clear_alpha. rewrite Hm. simpl.
  apply rd_wr_zero.
Qed.

Lemma clear_alphas_miss mask (l : list Z) d k :
  (forall i, rd mask i = 1 -> k <> i * 4 + 3) ->
  rd (fold_left (clear_alpha mask) l d) k = rd d k.
Proof.
  intros Hk. revert d. induction l as [|j l IH]; intros d; [done |].
  simpl. rewrite IH. unfold clear_alpha.
  destruct (Z.eqb_spec (rd mask j) 1) as [Hm|Hm]; [| done].
  rewrite rd_wr_other; [done |]. intros E. by apply (Hk j).
Qed.

Lemma clear_alphas_length mask (l : list Z) d :
  length (fold_left (clear_alpha mask) l d) = length d.
Proof.
  revert d. induction l as [|j l IH]; intros d; [done |].
  simpl. rewrite IH. unfold clear_alpha.
  destruct (rd mask j =? 1); [apply length_wr | done].
Qed.

Lemma rd_inside (a : list Z) i : rd a i <> 0 -> 0 <= i < Z.of_nat (length a).
Proof.
  intros H. destruct (decide (0 <= i < Z.of_nat (length a))); [done |].
  by rewrite rd_outside in H.
Qed.

(** C9, as stated, fails: a mask shorter than the image is applied without
    any error, and leaves an image of which only a part is masked. *)
Lemma applyTransparency_short_mask :
  Z.of_nat (length [1]) <> width pair_row * height pair_row /\
  applyTransparency pair_row [1] =
    Normal {| img_width := 2; img_height := 1;
              data := [0; 0; 0; 0; 0; 0; 0; 255] |} /\
  ~ (forall img mask,
       Z.of_nat (length mask) <> width img * height img ->
       applyTransparency img mask = Throw).
Proof.
  split; [done |]. split; [done |].
  intros H. by specialize (H pair_row [1] ltac:(done)).
Qed.

(** C9, amended.  [applyTransparency] makes no test on the length of the
    mask and never fails: for every image and every mask it returns an
    image of the same width and height, in which the alpha of pixel [i] is
    0 where the mask holds 1 at [i] and is the alpha of the input
    elsewhere, an index outside the mask reading as not 1. *)
Theorem applyTransparency_any_mask (img : Image) (mask : list Z) :
  exists out,
    applyTransparency img mask = Normal out /\
    img_width out = img_width img /\
    img_height out = img_height img /\
    forall i, alpha_at out i = if rd mask i =? 1 then 0 else alpha_at img i.
Proof.
  eexists. split; [reflexivity |]. simpl.
  split; [done |]. split; [done |].
  intros i. unfold alpha_at. simpl.
  destruct (Z.eqb_spec (rd mask i) 1) as [Hi|Hi].
  - apply clear_alphas_hit; [| done].
    apply elem_of_seqZ. assert (rd mask i <> 0) as Hr by lia.
    apply rd_inside in Hr. lia.
  - apply clear_alphas_miss. intros j Hj E.
    assert (i = j) as -> by lia. done.
Qed.

Lemma applyTransparency_any_mask_witness :
  exists out,
    applyTransparency pair_row [1] = Normal out /\
    alpha_at out 0 = 0 /\ alpha_at out 1 = 255.
Proof.
  destruct (applyTransparency_any_mask pair_row [1]) as (out & E & _ & _ & Ha).
  exists out. split; [done |]. split; [exact (Ha 0) | exact (Ha 1)].
Defined.

(** ** [sliceFromRects] *)

Lemma inject_Z_pos n : n > 0 -> (0 < inject_Z n)%Q.
Proof. intros H. change 0%Q with (inject_Z 0). rewrite <- Zlt_Qlt. lia. Qed.

Lemma inject_Z_nonzero n : n > 0 -> ~ (inject_Z n == 0)%Q.
Proof.
  intros H E. apply inject_Z_pos in H. rewrite E in H.
  by apply Qlt_irrefl in H.
Qed.

Lemma fit_fits (W w : Z) (t : Q) :
  w > 0 -> (inject_Z w * Qmin (inject_Z W / inject_Z w) t <= inject_Z W)%Q.
Proof.
  intros Hw.
  rewrite <- (Qmult_div_r (inject_Z W) (inject_Z w)) at 2
    by by apply inject_Z_nonzero.
  apply Qmult_le_l; [by apply inject_Z_pos | apply Q.le_min_l].
Qed.

Lemma sliceFromRects_length draw img rects rb bg cs :
  length (sliceFromRects draw img rects rb bg cs) = length rects.
Proof.
  unfold sliceFromRects. destruct (final_size rects cs). apply length_imap.
Qed.

(** C5.  Under the custom size [W] x [H], the frame of every rect [r] with
    positive width and height is [W] x [H]; its content is the source box
    [r] drawn with one scale, [min (W / r.width) (H / r.height)], for both
    axes, into the box of size [(r.width * scale, r.height * scale)] whose
    top-left corner is [((W - drawWidth) / 2, (H - drawHeight) / 2)].  The
    drawn box keeps the aspect of [r], fits in the frame, fills it along
    one axis and leaves equal margins on both sides. *)
Theorem sliceFromRects_custom (draw : Renderer) (img : Image) (rects : list Rect)
  (removeBackground : bool) (backgroundColor : option Color) (W H : Z)
  (i : nat) (r : Rect) :
  rects !! i = Some r -> rwidth r > 0 -> rheight r > 0 ->
  let scale :=
    Qmin (inject_Z W / inject_Z (rwidth r)) (inject_Z H / inject_Z (rheight r)) in
  let drawWidth := (inject_Z (rwidth r) * scale)%Q in
  let drawHeight := (inject_Z (rheight r) * scale)%Q in
  let destX := ((inject_Z W - drawWidth) / 2)%Q in
  let destY := ((inject_Z H - drawHeight) / 2)%Q in
  exists f,
    sliceFromRects draw img rects removeBackground backgroundColor (Some (W, H)) !! i
      = Some f /\
    frame_width f = W /\ frame_height f = H /\
    id f = Z.of_nat i /\ sourceRect f = r /\
    dataUrl f =
      key_canvas removeBackground
        (resolve_background img removeBackground backgroundColor)
        (draw img
           {| canvas_width := W; canvas_height := H;
              clip := clip_path r scale destX destY;
              src_x := rx r; src_y := ry r;
              src_width := rwidth r; src_height := rheight r;
              dest_x := destX; dest_y := destY;
              dest_width := drawWidth; dest_height := drawHeight |}) /\
    (drawWidth / inject_Z (rwidth r) == scale /\
     drawHeight / inject_Z (rheight r) == scale)%Q /\
    (drawWidth <= inject_Z W /\ drawHeight <= inject_Z H)%Q /\
    (drawWidth == inject_Z W \/ drawHeight == inject_Z H)%Q /\
    (destX + drawWidth + destX == inject_Z W /\
     destY + drawHeight + destY == inject_Z H)%Q.
Proof.
  intros Hi Hw Hh scale drawWidth drawHeight destX destY.
  pose proof (inject_Z_nonzero _ Hw) as Hw0.
  pose proof (inject_Z_nonzero _ Hh) as Hh0.
  eexists. split.
  { unfold sliceFromRects. simpl. rewrite list_lookup_imap, Hi. reflexivity. }
  simpl. repeat split; try reflexivity.
  - unfold drawWidth. rewrite Qmult_comm. by apply Qdiv_mult_l.
  - unfold drawHeight. rewrite Qmult_comm. by apply Qdiv_mult_l.
  - by apply fit_fits.
  - unfold drawHeight, scale. rewrite Q.min_comm. by apply fit_fits.
  - unfold drawWidth, drawHeight, scale.
    destruct (Q.min_spec (inject_Z W / inject_Z (rwidth r))
                (inject_Z H / inject_Z (rheight r))) as [[_ E]|[_ E]]; rewrite E.
    + left. by apply Qmult_div_r.
    + right. by apply Qmult_div_r.
  - unfold destX. field.
  - unfold destY. field.
Qed.

Lemma sliceFromRects_custom_witness :
  exists f,
    sliceFromRects blank dot [wide] false None (Some (8, 8)) !! 0%nat = Some f /\
    frame_width f = 8 /\ frame_height f = 8 /\ id f = 0 /\ sourceRect f = wide.
Proof.
  destruct (sliceFromRects_custom blank dot [wide] false None 8 8 0 wide)
    as (f & E & Hw & Hh & Hid & Hsrc & _); [done | done | done |].
  exists f. by repeat split.
Defined.

Lemma auto_size_fold (rects : list Rect) (a b : Z) :
  let '(fw, fh) :=
    fold_left (fun (acc : Z * Z) rect =>
      let '(fw, fh) := acc in
      (if rwidth rect >? fw then rwidth rect else fw,
       if rheight rect >? fh then rheight rect else fh)) rects (a, b) in
  (a <= fw /\ b <= fh) /\
  (forall r, r ∈ rects -> rwidth r <= fw /\ rheight r <= fh) /\
  (fw = a \/ exists r, r ∈ rects /\ rwidth r = fw) /\
  (fh = b \/ exists r, r ∈ rects /\ rheight r = fh).
Proof.
  revert a b. induction rects as [|r rects IH]; intros a b; simpl.
  { split; [lia |]. split; [intros r H; by apply elem_of_nil in H |]. by split; left. }
  specialize (IH (if rwidth r >? a then rwidth r else a)
                 (if rheight r >? b then rheight r else b)).
  destruct (fold_left _ rects _) as [fw fh].
  destruct IH as ((Ha & Hb) & Hall & Hw & Hh).
  pose proof (Z.gtb_spec (rwidth r) a) as Sa.
  pose proof (Z.gtb_spec (rheight r) b) as Sb.
  split; [destruct Sa, Sb; lia |]. split; [| split].
  - intros r' Hr'. apply elem_of_cons in Hr' as [->|Hr']; [| by apply Hall].
    destruct Sa, Sb; lia.
  - destruct Hw as [Hw|(r' & Hr' & Hw)]; [| right; exists r'; split; [by right | done]].
    destruct Sa; [right; exists r; split; [by left | lia] | by left].
  - destruct Hh as [Hh|(r' & Hr' & Hh)]; [| right; exists r'; split; [by right | done]].
    destruct Sb; [right; exists r; split; [by left | lia] | by left].
Qed.

(** C6.  Under the auto policy all frames of a batch have one size: the
    largest width and the largest height among the rects, each raised to
    1 if it is smaller; every rect is drawn at scale 1, centred.  So a
    single rect of width and height at least 1 gives one frame of exactly
    its size, drawn at scale 1. *)
Theorem sliceFromRects_auto (draw : Renderer) (img : Image) (rects : list Rect)
  (removeBackground : bool) (backgroundColor : option Color) :
  let frames := sliceFromRects draw img rects removeBackground backgroundColor None in
  exists finalWidth finalHeight : Z,
    (1 <= finalWidth /\ 1 <= finalHeight) /\
    (forall r, r ∈ rects -> rwidth r <= finalWidth /\ rheight r <= finalHeight) /\
    (finalWidth = 1 \/ exists r, r ∈ rects /\ rwidth r = finalWidth) /\
    (finalHeight = 1 \/ exists r, r ∈ rects /\ rheight r = finalHeight) /\
    length frames = length rects /\
    (forall i r, rects !! i = Some r ->
       let scale := 1%Q in
       let drawWidth := (inject_Z (rwidth r) * scale)%Q in
       let drawHeight := (inject_Z (rheight r) * scale)%Q in
       let destX := ((inject_Z finalWidth - drawWidth) / 2)%Q in
       let destY := ((inject_Z finalHeight - drawHeight) / 2)%Q in
       exists f,
         frames !! i = Some f /\
         frame_width f = finalWidth /\ frame_height f = finalHeight /\
         id f = Z.of_nat i /\ sourceRect f = r /\
         dataUrl f =
           key_canvas removeBackground
             (resolve_background img removeBackground backgroundColor)
             (draw img
                {| canvas_width := finalWidth; canvas_height := finalHeight;
                   clip := clip_path r scale destX destY;
                   src_x := rx r; src_y := ry r;
                   src_width := rwidth r; src_height := rheight r;
                   dest_x := destX; dest_y := destY;
                   dest_width := drawWidth; dest_height := drawHeight |})) /\
    (forall R, rects = [R] -> 1 <= rwidth R -> 1 <= rheight R ->
       finalWidth = rwidth R /\ finalHeight = rheight R /\
       exists f, frames = [f] /\
         frame_width f = rwidth R /\ frame_height f = rheight R).
Proof.
  intros frames. unfold frames, sliceFromRects, final_size, auto_size.
  pose proof (auto_size_fold rects 0 0) as Hfold.
  destruct (fold_left _ rects (0, 0)) as [fw fh].
  destruct Hfold as ((Ha & Hb) & Hall & Hw & Hh).
  exists (Z.max 1 fw), (Z.max 1 fh).
  split; [lia |]. split; [| split; [| split; [| split; [| split]]]].
  - intros r Hr. destruct (Hall r Hr). lia.
  - destruct Hw as [->|(r & Hr & Hw)]; [left; lia |].
    destruct (Z.max_spec 1 fw) as [[_ E]|[_ E]]; rewrite E; [| by left].
    right. by exists r.
  - destruct Hh as [->|(r & Hr & Hh)]; [left; lia |].
    destruct (Z.max_spec 1 fh) as [[_ E]|[_ E]]; rewrite E; [| by left].
    right. by exists r.
  - apply length_imap.
  - intros i r Hi. simpl. eexists. rewrite list_lookup_imap, Hi.
    split; [reflexivity |]. by repeat split.
  - intros R -> HRw HRh.
    assert (fw = rwidth R).
    { destruct Hw as [->|(r & Hr & Hw)].
      - destruct (Hall R) as [? _]; [by left | lia].
      - apply list_elem_of_singleton in Hr as ->. done. }
    assert (fh = rheight R).
    { destruct Hh as [->|(r & Hr & Hh)].
      - destruct (Hall R) as [_ ?]; [by left | lia].
      - apply list_elem_of_singleton in Hr as ->. done. }
    subst fw fh. rewrite !Z.max_r by lia.
    split; [done |]. split; [done |].
    eexists. split; [reflexivity |]. by split.
Qed.

Lemma sliceFromRects_auto_witness :
  exists f,
    sliceFromRects blank dot [wide] false None None = [f] /\
    frame_width f = 4 /\ frame_height f = 2.
Proof.
  destruct (sliceFromRects_auto blank dot [wide] false None)
    as (fw & fh & _ & _ & _ & _ & _ & _ & Hone).
  destruct (Hone wide eq_refl) as (_ & _ & f & E & Hw & Hh); [done | done |].
  by exists f.
Defined.

(** ** [sliceSpritesheet] *)

Lemma bind_unit_fmap {A B} (f : A -> B) (l : list A) :
  (x ← l; [f x]) = f <$> l.
Proof. induction l as [|a l IH]; [done |]. rewrite bind_cons, IH. done. Qed.

Lemma grid_rects_rows img rows cols :
  grid_rects img rows cols =
  r ← seqZ 0 rows;
  (cell_rect (width img / cols) (height img / rows) r <$> seqZ 0 cols).
Proof.
  unfold grid_rects. apply list_bind_ext; [| done].
  intros r.
  exact (bind_unit_fmap (cell_rect (width img / cols) (height img / rows) r) _).
Qed.

Section Grid.
Variables (draw : Renderer) (img : Image) (removeBackground : bool)
  (bgColor : option Color) (customSize : option (Z * Z))
  (gw gh fw fh : Z).

Local Abbreviation frame_at :=
  (rect_frame draw img removeBackground bgColor customSize fw fh).
Local Abbreviation cell_at :=
  (grid_cell draw img removeBackground bgColor customSize gw gh fw fh).

(** One row of the grid pushes the frames of its cells, numbered on. *)
Lemma grid_row_frames (r : Z) (cs : list Z) (n : nat) (frames : list ProcessedFrame) :
  fold_left (cell_at r) cs (Z.of_nat n, frames) =
  (Z.of_nat (n + length cs),
   frames ++ imap (fun j => frame_at (n + j)) (cell_rect gw gh r <$> cs)).
Proof.
  revert n frames. induction cs as [|c cs IH]; intros n frames.
  { simpl. by rewrite Nat.add_0_r, app_nil_r. }
  simpl fold_left. unfold grid_cell at 1.
  replace (Z.of_nat n + 1) with (Z.of_nat (S n)) by lia.
  rewrite IH. f_equal; [f_equal; simpl; lia |].
  rewrite <- app_assoc. f_equal. simpl. rewrite Nat.add_0_r. f_equal.
  apply imap_ext. intros j x _. simpl. f_equal. lia.
Qed.

Lemma grid_frames (cols : Z) (rs : list Z) (n : nat) (frames : list ProcessedFrame) :
  let rects := r ← rs; (cell_rect gw gh r <$> seqZ 0 cols) in
  fold_left (fun st r => fold_left (cell_at r) (seqZ 0 cols) st) rs
    (Z.of_nat n, frames) =
  (Z.of_nat (n + length rects),
   frames ++ imap (fun j => frame_at (n + j)) rects).
Proof.
  revert n frames. induction rs as [|r rs IH]; intros n frames.
  { simpl. by rewrite Nat.add_0_r, app_nil_r. }
  simpl fold_left. rewrite bind_cons, grid_row_frames, IH. cbv zeta.
  rewrite length_app, length_fmap, imap_app, length_fmap.
  f_equal; [f_equal; lia |].
  rewrite <- app_assoc. do 2 f_equal.
  apply imap_ext. intros j x _. f_equal. lia.
Qed.
End Grid.

Lemma auto_size_cells (rects : list Rect) (cw ch : Z) :
  rects <> [] -> 1 <= cw -> 1 <= ch ->
  (forall r, r ∈ rects -> rwidth r = cw /\ rheight r = ch) ->
  auto_size rects = (cw, ch).
Proof.
  intros Hne Hcw Hch Hall. unfold auto_size.
  pose proof (auto_size_fold rects 0 0) as Hfold.
  destruct (fold_left _ rects (0, 0)) as [fw fh].
  destruct Hfold as (_ & Hle & Hw & Hh).
  destruct rects as [|r0 rects]; [done |].
  destruct (Hall r0) as [E1 E2]; [by left |].
  destruct (Hle r0) as [L1 L2]; [by left |].
  assert (fw = cw).
  { destruct Hw as [->|(r & Hr & <-)]; [lia | by apply Hall]. }
  assert (fh = ch).
  { destruct Hh as [->|(r & Hr & <-)]; [lia | by apply Hall]. }
  subst. f_equal; lia.
Qed.

Lemma grid_rects_cells img rows cols r :
  r ∈ grid_rects img rows cols ->
  rwidth r = width img / cols /\ rheight r = height img / rows /\ rpath r = None.
Proof.
  rewrite grid_rects_rows. intros H.
  apply list_elem_of_bind in H as (y & H & _).
  apply list_elem_of_fmap in H as (x & -> & _). done.
Qed.

Lemma grid_rects_length img rows cols :
  0 <= rows -> 0 <= cols ->
  Z.of_nat (length (grid_rects img rows cols)) = rows * cols.
Proof.
  intros Hr Hc. rewrite grid_rects_rows.
  assert (H : forall l : list Z,
            length (r ← l; (cell_rect (width img / cols) (height img / rows) r
                              <$> seqZ 0 cols))
            = (length l * Z.to_nat cols)%nat).
  { induction l as [|a l IH]; [done |].
    by rewrite bind_cons, length_app, length_fmap, length_seqZ, IH. }
  rewrite H, length_seqZ. lia.
Qed.

(** C7.  For at least one row and one column and cells of at least one
    pixel each way, [sliceSpritesheet] returns the very frames that
    [sliceFromRects] returns for the cell rects taken row by row, none of
    which has a path, under the same background and size options; there
    are [rows * cols] frames, the frame at position [k] has id [k] and the
    [k]-th cell as its source rect. *)
Theorem sliceSpritesheet_composite (draw : Renderer) (img : Image) (rows cols : Z)
  (removeBackground : bool) (backgroundColor : option Color)
  (customSize : option (Z * Z)) :
  1 <= rows -> 1 <= cols -> 1 <= width img / cols -> 1 <= height img / rows ->
  let frames :=
    sliceSpritesheet draw img rows cols removeBackground backgroundColor customSize in
  let rects := grid_rects img rows cols in
  frames = sliceFromRects draw img rects removeBackground backgroundColor customSize /\
  Forall (fun r => rpath r = None) rects /\
  Z.of_nat (length frames) = rows * cols /\
  (forall k f, frames !! k = Some f ->
     id f = Z.of_nat k /\ rects !! k = Some (sourceRect f)).
Proof.
  intros Hrows Hcols Hgw Hgh frames rects.
  assert (Hlen : Z.of_nat (length rects) = rows * cols)
    by (apply grid_rects_length; lia).
  assert (Heq : frames =
                sliceFromRects draw img rects removeBackground backgroundColor customSize).
  { unfold frames, sliceSpritesheet.
    destruct (Z.eqb_spec (width img / cols) 0); [lia |].
    destruct (Z.eqb_spec (height img / rows) 0); [lia |]. simpl orb. cbv iota.
    change (0, @nil ProcessedFrame) with (Z.of_nat 0, @nil ProcessedFrame).
    rewrite grid_frames. simpl snd. rewrite <- grid_rects_rows. fold rects.
    unfold sliceFromRects.
    assert (Hsize : final_size rects customSize =
              (match customSize with Some (cw, _) => cw | None => width img / cols end,
               match customSize with Some (_, ch) => ch | None => height img / rows end)).
    { destruct customSize as [[cw ch]|]; [done |]. simpl.
      apply auto_size_cells; try lia.
      - intros E. rewrite E in Hlen. simpl in Hlen. nia.
      - intros r Hr. apply grid_rects_cells in Hr. tauto. }
    rewrite Hsize. done. }
  split; [done |]. split; [| split].
  - apply Forall_forall. intros r Hr. unfold rects in Hr.
    apply grid_rects_cells in Hr. tauto.
  - rewrite Heq, sliceFromRects_length. done.
  - intros k f. rewrite Heq. unfold sliceFromRects.
    destruct (final_size rects customSize) as [fw fh].
    rewrite list_lookup_imap. destruct (rects !! k) as [r|]; [| done].
    simpl. by intros [= <-].
Qed.

Lemma sliceSpritesheet_composite_witness :
  (sliceSpritesheet blank square4 2 2 false None None
   = sliceFromRects blank square4 (grid_rects square4 2 2) false None None /\
   Forall (fun r => rpath r = None) (grid_rects square4 2 2) /\
   Z.of_nat (length (sliceSpritesheet blank square4 2 2 false None None)) = 2 * 2 /\
   (forall k f, sliceSpritesheet blank square4 2 2 false None None !! k = Some f ->
      id f = Z.of_nat k /\ grid_rects square4 2 2 !! k = Some (sourceRect f))) /\
  map (fun f => (id f, (rx (sourceRect f), ry (sourceRect f)),
                 (frame_width f, frame_height f)))
    (sliceSpritesheet blank square4 2 2 false None None)
  = [(0, (0, 0), (2, 2)); (1, (2, 0), (2, 2));
     (2, (0, 2), (2, 2)); (3, (2, 2), (2, 2))].
Proof.
  split; [| by vm_compute].
  apply (sliceSpritesheet_composite blank square4 2 2 false None None);
    by vm_compute.
Defined.

(** * Further properties of the code *)

(** ** [detectSprites]: where the rects lie *)

Lemma component_box_inside img s r :
  component_box img s r ->
  0 <= rx r /\ 0 <= ry r /\ 1 <= rwidth r /\ 1 <= rheight r /\
  rx r + rwidth r <= width img /\ ry r + rheight r <= height img /\
  rpath r = None.
Proof.
  intros Hbox. pose proof (component_box_seed img s r Hbox) as Hs.
  destruct Hbox as (Hin & (a & Ha & Ea) & (b & Hb & Eb) & (c & Hc & Ec)
                    & (d & Hd & Ed) & Hn).
  destruct (Hin s) as [Hsx Hsy]; [by constructor |].
  apply connected_end in Ha, Hb, Hc, Hd.
  destruct Ha as [[Ha _] _], Hb as [[Hb _] _], Hc as [[_ Hc] _], Hd as [[_ Hd] _].
  repeat split; try done; lia.
Qed.

Lemma detectSprites_boxes img :
  exists seeds boxes,
    detectSprites img = Finished (sort_by compare_rects boxes) /\
    Forall2 (component_box img) seeds boxes /\
    (forall p, opaque img p ->
       exists s, s ∈ seeds /\ connected (opaque img) s p).
Proof.
  destruct (scan_image_spec img) as (seeds & v & boxes & E & Hbox & _ & Hall).
  exists seeds, boxes. split; [unfold detectSprites; by rewrite E | done].
Qed.

Lemma detectSprites_inside img rects :
  detectSprites img = Finished rects ->
  Forall (fun r =>
            0 <= rx r /\ 0 <= ry r /\ 1 <= rwidth r /\ 1 <= rheight r /\
            rx r + rwidth r <= width img /\ ry r + rheight r <= height img /\
            rpath r = None) rects.
Proof.
  destruct (detectSprites_boxes img) as (seeds & boxes & E & Hbox & _).
  rewrite E. intros [= <-].
  apply Forall_forall. intros r Hr. rewrite sort_by_perm in Hr.
  apply list_elem_of_lookup in Hr as [i Hi].
  destruct (Forall2_lookup_r _ _ _ _ _ Hbox Hi) as (s & _ & Hsr).
  by apply (component_box_inside img s).
Qed.

(** X1.  Every rect that [detectSprites] returns lies inside the image, is
    at least one pixel wide and high and has no path; every pixel with
    alpha above 10 lies in one of the rects; and the result is empty
    exactly when the image has no such pixel. *)
Theorem detectSprites_rects_cover (img : Image) :
  exists rects,
    detectSprites img = Finished rects /\
    Forall (fun r =>
              0 <= rx r /\ 0 <= ry r /\ 1 <= rwidth r /\ 1 <= rheight r /\
              rx r + rwidth r <= width img /\ ry r + rheight r <= height img /\
              rpath r = None) rects /\
    (forall p, opaque img p ->
       exists r, r ∈ rects /\
         rx r <= p.1 < rx r + rwidth r /\ ry r <= p.2 < ry r + rheight r) /\
    (rects = [] <-> forall p, ~ opaque img p).
Proof.
  destruct (detectSprites_boxes img) as (seeds & boxes & E & Hbox & Hall).
  pose proof (sort_by_perm compare_rects boxes) as Hperm.
  exists (sort_by compare_rects boxes). split; [done |].
  assert (Hcover : forall p, opaque img p ->
            exists r, r ∈ sort_by compare_rects boxes /\
              rx r <= p.1 < rx r + rwidth r /\ ry r <= p.2 < ry r + rheight r).
  { intros p Hp. destruct (Hall p Hp) as (s & Hs & Hsp).
    apply list_elem_of_lookup in Hs as [i Hi].
    destruct (Forall2_lookup_l _ _ _ _ _ Hbox Hi) as (r & Hr & Hsr).
    exists r. split; [| apply Hsr, Hsp].
    rewrite Hperm. apply list_elem_of_lookup. by exists i. }
  split; [by apply detectSprites_inside | split; [exact Hcover |]].
  split.
  - intros Hnil p Hp. destruct (Hcover p Hp) as (r & Hr & _).
    rewrite Hnil in Hr. by apply elem_of_nil in Hr.
  - intros Hnone. destruct Hbox as [|s r seeds boxes Hs _]; [done |].
    destruct (Hnone s). by apply (component_box_seed img s r).
Qed.

Lemma detectSprites_rects_cover_witness :
  exists r, r ∈ [ {| rx := 0; ry := 0; rwidth := 2; rheight := 1; rpath := None |} ] /\
    rx r <= 1 < rx r + rwidth r /\ ry r <= 0 < ry r + rheight r.
Proof.
  destruct (detectSprites_rects_cover pair_row) as (rects & E & _ & Hcover & _).
  vm_compute in E. injection E as <-.
  apply (Hcover (1, 0)).
  split; [unfold inside, width, height; simpl; lia | by vm_compute].
Defined.

(** ** [performFloodFill]: the tolerance *)

(** X2.  Raising the tolerance never drops a pixel from the selection:
    with the same image and seed, every pixel marked at a tolerance is
    marked at every larger one. *)
Theorem performFloodFill_tolerance_monotone img (x y : Q) (t1 t2 : Z)
  (m1 : list Z) :
  t1 <= t2 ->
  performFloodFill img x y t1 = Finished (Some m1) ->
  exists m2,
    performFloodFill img x y t2 = Finished (Some m2) /\
    forall i, rd m1 i = 1 -> rd m2 i = 1.
Proof.
  intros Ht E1.
  destruct (performFloodFill_spec img x y t1) as [Hnone1 Hsome1].
  destruct (performFloodFill_spec img x y t2) as [_ Hsome2].
  destruct (out_of_bounds_or_not img x y) as [Hb|Hb].
  { rewrite Hnone1 in E1 by by left. done. }
  destruct (decide (alpha_at img (index_of img (Qfloor x, Qfloor y)) = 0)) as [Ha|Ha].
  { rewrite Hnone1 in E1 by by right. done. }
  destruct (Hsome1 Hb Ha) as (m1' & E1' & Hlen1 & _ & Hm1).
  rewrite E1' in E1. injection E1 as ->.
  destruct (Hsome2 Hb Ha) as (m2 & E2 & _ & _ & Hm2).
  exists m2. split; [done |]. intros i Hi.
  assert (Hr : 0 <= i < width img * height img).
  { assert (rd m1 i <> 0) as Hne by lia. apply rd_inside in Hne. lia. }
  destruct (coords_inside img i Hr) as [Hin Hidx].
  rewrite <- Hidx in Hi |- *.
  apply Hm2; [done |]. apply Hm1 in Hi; [| done].
  eapply grown_mono; [| exact Hi].
  intros r (H1 & H2 & H3). split; [done |]. split; [done | lia].
Qed.

Lemma performFloodFill_tolerance_monotone_witness :
  exists m2,
    performFloodFill red_blue 0 0 600 = Finished (Some m2) /\
    forall i, rd [1; 0] i = 1 -> rd m2 i = 1.
Proof.
  apply (performFloodFill_tolerance_monotone red_blue 0 0 0 600 [1; 0]);
    [lia | by vm_compute].
Defined.

(** ** [applyTransparency] and the calls around it *)

Lemma rd_ext (a b : list Z) :
  length a = length b -> (forall i, rd a i = rd b i) -> a = b.
Proof.
  intros Hlen Hrd. apply list_eq. intros n.
  specialize (Hrd (Z.of_nat n)). rewrite !rd_nonneg, Nat2Z.id in Hrd by lia.
  destruct (a !! n) as [x|] eqn:Ea, (b !! n) as [y|] eqn:Eb; simpl in Hrd.
  - by subst.
  - apply lookup_lt_Some in Ea. apply lookup_ge_None in Eb. lia.
  - apply lookup_ge_None in Ea. apply lookup_lt_Some in Eb. lia.
  - done.
Qed.

(** The bytes after the loop of [applyTransparency]. *)
Lemma clear_alphas_rd mask d k :
  rd (fold_left (clear_alpha mask) (seqZ 0 (Z.of_nat (length mask))) d) k =
  if decide (rd mask ((k - 3) / 4) = 1 /\ k = (k - 3) / 4 * 4 + 3) then 0
  else rd d k.
Proof.
  destruct (decide _) as [[Hm Hk]|Hno].
  - rewrite Hk at 1. apply clear_alphas_hit; [| done].
    apply elem_of_seqZ. assert (rd mask ((k - 3) / 4) <> 0) as Hne by lia.
    apply rd_inside in Hne. lia.
  - apply clear_alphas_miss. intros i Hi Hk. apply Hno.
    assert ((k - 3) / 4 = i) as -> by (subst k; replace (i * 4 + 3 - 3) with (i * 4) by lia;
                                        by apply Z.div_mul).
    by split.
Qed.

Lemma applyTransparency_alpha img mask out i :
  applyTransparency img mask = Normal out ->
  alpha_at out i = if decide (rd mask i = 1) then 0 else alpha_at img i.
Proof.
  intros [= <-]. unfold alpha_at. simpl. rewrite clear_alphas_rd.
  replace ((i * 4 + 3 - 3) / 4) with i
    by (replace (i * 4 + 3 - 3) with (i * 4) by lia; by rewrite Z.div_mul).
  destruct (decide (rd mask i = 1)) as [Hm|Hm].
  - rewrite decide_True; done.
  - rewrite decide_False; [done | tauto].
Qed.

Lemma applyTransparency_colour img mask out i c :
  applyTransparency img mask = Normal out -> 0 <= c < 3 ->
  rd (data out) (i * 4 + c) = rd (data img) (i * 4 + c).
Proof.
  intros [= <-] Hc. simpl. apply clear_alphas_miss. intros j _. lia.
Qed.

(** X3.  Applying a mask twice is applying it once. *)
Theorem applyTransparency_idempotent (img : Image) (mask : list Z) (out : Image) :
  applyTransparency img mask = Normal out ->
  applyTransparency out mask = Normal out.
Proof.
  intros [= <-]. unfold applyTransparency. simpl. do 2 f_equal.
  apply rd_ext; [by rewrite !clear_alphas_length |].
  intros k. rewrite (clear_alphas_rd mask (fold_left _ _ _) k).
  destruct (decide _) as [H|H]; [| done].
  rewrite clear_alphas_rd. by rewrite decide_True.
Qed.

Lemma applyTransparency_idempotent_witness :
  applyTransparency
    {| img_width := 2; img_height := 1; data := [0; 0; 0; 0; 0; 0; 0; 255] |} [1]
  = Normal {| img_width := 2; img_height := 1; data := [0; 0; 0; 0; 0; 0; 0; 255] |}.
Proof. by apply (applyTransparency_idempotent pair_row [1]). Defined.

(** X4.  The pixels with alpha above 10 after a mask is applied are those
    of the input that the mask does not mark: masking removes pixels from
    what [detectSprites] sees and adds none. *)
Theorem applyTransparency_opaque (img : Image) (mask : list Z) (out : Image) :
  applyTransparency img mask = Normal out ->
  forall p, opaque out p <-> opaque img p /\ rd mask (index_of img p) <> 1.
Proof.
  intros E p.
  assert (Hw : width out = width img) by (injection E as <-; done).
  assert (Hh : height out = height img) by (injection E as <-; done).
  unfold opaque, inside, index_of. rewrite Hw, Hh.
  rewrite (applyTransparency_alpha img mask out _ E).
  unfold alphaThreshold. destruct (decide _); intuition lia.
Qed.

Lemma applyTransparency_opaque_witness :
  opaque {| img_width := 2; img_height := 1; data := [0; 0; 0; 0; 0; 0; 0; 255] |} (1, 0)
  <-> opaque pair_row (1, 0) /\ rd [1] (index_of pair_row (1, 0)) <> 1.
Proof. by apply (applyTransparency_opaque pair_row [1]). Defined.

(** X5.  Confirming a wand selection clears the alpha of every selected
    pixel and leaves every other pixel as it was; a second wand click on
    the same spot then selects nothing. *)
Theorem wand_selection_removed (img : Image) (x y : Q) (mask : list Z) :
  handleWandSelect img x y = Finished (Some mask) ->
  exists out,
    handleConfirmRemoval img (Some mask) = Normal out /\
    (forall p, inside img p -> rd mask (index_of img p) = 1 ->
       alpha_at out (index_of img p) = 0) /\
    (forall p, inside img p -> rd mask (index_of img p) <> 1 ->
       red_at out (index_of img p) = red_at img (index_of img p) /\
       green_at out (index_of img p) = green_at img (index_of img p) /\
       blue_at out (index_of img p) = blue_at img (index_of img p) /\
       alpha_at out (index_of img p) = alpha_at img (index_of img p)) /\
    handleWandSelect out x y = Finished None.
Proof.
  unfold handleWandSelect, handleConfirmRemoval. intros E.
  destruct (applyTransparency img mask) as [out|] eqn:Eout; [| done].
  exists out. split; [done |].
  pose proof (fun i => applyTransparency_alpha img mask out i Eout) as Halpha.
  split; [| split].
  - intros p _ Hm. rewrite Halpha. by rewrite decide_True.
  - intros p _ Hm. unfold red_at, green_at, blue_at.
    split; [| split; [| split]].
    + replace (index_of img p * 4) with (index_of img p * 4 + 0) by lia.
      apply (applyTransparency_colour img mask out); [done | lia].
    + apply (applyTransparency_colour img mask out); [done | lia].
    + apply (applyTransparency_colour img mask out); [done | lia].
    + rewrite Halpha. by rewrite decide_False.
  - destruct (performFloodFill_spec img x y 30) as [Hnone Hsome].
    destruct (out_of_bounds_or_not img x y) as [Hb|Hb].
    { rewrite Hnone in E by by left. done. }
    destruct (decide (alpha_at img (index_of img (Qfloor x, Qfloor y)) = 0)) as [Ha|Ha].
    { rewrite Hnone in E by by right. done. }
    destruct (Hsome Hb Ha) as (mask' & E' & _ & _ & Hmask).
    rewrite E' in E. injection E as ->.
    destruct (performFloodFill_spec out x y 30) as [Hnone' _].
    apply Hnone'. right.
    assert (Hw : width out = width img) by (injection Eout as <-; done).
    unfold index_of at 1. rewrite Hw. fold (index_of img (Qfloor x, Qfloor y)).
    rewrite Halpha, decide_True; [done |].
    apply Hmask; [by apply floor_inside | constructor].
Qed.

Lemma wand_selection_removed_witness :
  exists out,
    handleConfirmRemoval red_blue (Some [1; 0]) = Normal out /\
    handleWandSelect out 0 0 = Finished None.
Proof.
  destruct (wand_selection_removed red_blue 0 0 [1; 0])
    as (out & E & _ & _ & Hagain); [by vm_compute |].
  by exists out.
Defined.

(** ** [sliceFromRects]: the frames in general *)

Lemma sliceFromRects_lookup draw img rects rb bg cs (k : nat) f :
  sliceFromRects draw img rects rb bg cs !! k = Some f ->
  id f = Z.of_nat k /\ rects !! k = Some (sourceRect f) /\
  frame_width f = (final_size rects cs).1 /\
  frame_height f = (final_size rects cs).2.
Proof.
  unfold sliceFromRects. destruct (final_size rects cs) as [fw fh].
  rewrite list_lookup_imap. destruct (rects !! k) as [r|]; [| done].
  simpl. by intros [= <-].
Qed.

Lemma Qdiv_half (x : Q) : (x / 2 == x * (1 # 2))%Q.
Proof. reflexivity. Qed.

(** X6.  Under the auto policy every rect of the batch is drawn at its own
    size wholly inside its frame, with equal margins: the destination box
    starts at or after 0 and ends at or before the frame's width and
    height.  No sprite is cropped or scaled. *)
Theorem sliceFromRects_auto_inside (draw : Renderer) (img : Image)
  (rects : list Rect) (removeBackground : bool) (backgroundColor : option Color)
  (i : nat) (r : Rect) :
  rects !! i = Some r ->
  exists f,
    sliceFromRects draw img rects removeBackground backgroundColor None !! i
      = Some f /\
    let drawWidth := (inject_Z (rwidth r) * 1)%Q in
    let drawHeight := (inject_Z (rheight r) * 1)%Q in
    let destX := ((inject_Z (frame_width f) - drawWidth) / 2)%Q in
    let destY := ((inject_Z (frame_height f) - drawHeight) / 2)%Q in
    dataUrl f =
      key_canvas removeBackground
        (resolve_background img removeBackground backgroundColor)
        (draw img
           {| canvas_width := frame_width f; canvas_height := frame_height f;
              clip := clip_path r 1 destX destY;
              src_x := rx r; src_y := ry r;
              src_width := rwidth r; src_height := rheight r;
              dest_x := destX; dest_y := destY;
              dest_width := drawWidth; dest_height := drawHeight |}) /\
    (drawWidth == inject_Z (rwidth r) /\ drawHeight == inject_Z (rheight r) /\
     0 <= destX /\ destX + drawWidth <= inject_Z (frame_width f) /\
     0 <= destY /\ destY + drawHeight <= inject_Z (frame_height f))%Q.
Proof.
  intros Hi. unfold sliceFromRects, final_size, auto_size.
  pose proof (auto_size_fold rects 0 0) as Hfold.
  destruct (fold_left _ rects (0, 0)) as [fw fh].
  destruct Hfold as (_ & Hall & _).
  destruct (Hall r) as [Hw Hh]; [apply list_elem_of_lookup; by exists i |].
  rewrite list_lookup_imap, Hi. eexists. split; [reflexivity |]. simpl.
  split; [done |].
  assert (Hqw : (inject_Z (rwidth r) <= inject_Z (Z.max 1 fw))%Q)
    by (rewrite <- Zle_Qle; lia).
  assert (Hqh : (inject_Z (rheight r) <= inject_Z (Z.max 1 fh))%Q)
    by (rewrite <- Zle_Qle; lia).
  revert Hqw Hqh.
  generalize (inject_Z (rwidth r)) (inject_Z (rheight r))
    (inject_Z (Z.max 1 fw)) (inject_Z (Z.max 1 fh)).
  intros a b c d Hac Hbd. rewrite !Qdiv_half. repeat split; lra.
Qed.

Lemma sliceFromRects_auto_inside_witness :
  exists f,
    sliceFromRects blank dot [wide; wide] false None None !! 1%nat = Some f /\
    frame_width f = 4 /\ frame_height f = 2.
Proof.
  destruct (sliceFromRects_auto_inside blank dot [wide; wide] false None 1 wide)
    as (f & E & _); [done |].
  exists f. split; [done |]. vm_compute in E. by injection E as <-.
Defined.

(** ** [sliceSpritesheet]: the grid *)

Lemma sliceSpritesheet_frames draw img rows cols rb bg cs :
  sliceSpritesheet draw img rows cols rb bg cs =
  if (width img / cols =? 0) || (height img / rows =? 0) then []
  else imap (rect_frame draw img rb (resolve_background img rb bg) cs
               match cs with Some (cw, _) => cw | None => width img / cols end
               match cs with Some (_, ch) => ch | None => height img / rows end)
         (grid_rects img rows cols).
Proof.
  unfold sliceSpritesheet. destruct (_ || _); [done |].
  change (0, @nil ProcessedFrame) with (Z.of_nat 0, @nil ProcessedFrame).
  rewrite grid_frames. simpl snd. by rewrite <- grid_rects_rows.
Qed.

Lemma bind_fmap_lookup {A B C} (g : A -> B -> C) (rs : list A) (cs : list B)
  (i j : nat) r c :
  rs !! i = Some r -> cs !! j = Some c ->
  (r ← rs; (g r <$> cs)) !! (i * length cs + j)%nat = Some (g r c).
Proof.
  intros Hi Hj. revert i Hi. induction rs as [|a rs IH]; intros i Hi; [done |].
  rewrite bind_cons. destruct i as [|i]; simpl in Hi.
  - injection Hi as ->. simpl.
    rewrite lookup_app_l by (rewrite length_fmap; by eapply lookup_lt_Some).
    by rewrite list_lookup_fmap, Hj.
  - rewrite lookup_app_r by (rewrite length_fmap; simpl; lia).
    rewrite length_fmap.
    replace (S i * length cs + j - length cs)%nat with (i * length cs + j)%nat
      by (simpl; lia).
    by apply IH.
Qed.

Lemma grid_rects_lookup img rows cols (k : nat) :
  1 <= cols -> Z.of_nat k < rows * cols ->
  grid_rects img rows cols !! k =
  Some (cell_rect (width img / cols) (height img / rows)
          (Z.of_nat k / cols) (Z.of_nat k mod cols)).
Proof.
  intros Hcols Hk. rewrite grid_rects_rows.
  pose proof (Z.div_mod (Z.of_nat k) cols ltac:(lia)) as Hdm.
  pose proof (Z.mod_pos_bound (Z.of_nat k) cols ltac:(lia)) as Hm.
  assert (Hd0 : 0 <= Z.of_nat k / cols) by (apply Z.div_pos; lia).
  assert (Hd1 : Z.of_nat k / cols < rows) by (apply Z.div_lt_upper_bound; lia).
  replace k with (Z.to_nat (Z.of_nat k / cols) * length (seqZ 0 cols)
                  + Z.to_nat (Z.of_nat k mod cols))%nat at 1
    by (rewrite length_seqZ; nia).
  apply bind_fmap_lookup.
  - rewrite lookup_seqZ_lt by lia. f_equal. lia.
  - rewrite lookup_seqZ_lt by lia. f_equal. lia.
Qed.

(** X7.  [sliceSpritesheet] returns no frame exactly when the grid is
    degenerate: fewer than one row or column, or more columns than the
    image is wide, or more rows than it is high. *)
Theorem sliceSpritesheet_empty (draw : Renderer) (img : Image) (rows cols : Z)
  (removeBackground : bool) (backgroundColor : option Color)
  (customSize : option (Z * Z)) :
  sliceSpritesheet draw img rows cols removeBackground backgroundColor customSize = []
  <-> rows <= 0 \/ cols <= 0 \/ width img < cols \/ height img < rows.
Proof.
  rewrite sliceSpritesheet_frames.
  pose proof (width_nonneg img) as Hw. pose proof (height_nonneg img) as Hh.
  split.
  - intros E.
    destruct (decide (rows <= 0 \/ cols <= 0 \/ width img < cols \/ height img < rows))
      as [|Hno]; [done |]. exfalso.
    assert (1 <= width img / cols) by (apply Z.div_le_lower_bound; lia).
    assert (1 <= height img / rows) by (apply Z.div_le_lower_bound; lia).
    destruct (Z.eqb_spec (width img / cols) 0); [lia |].
    destruct (Z.eqb_spec (height img / rows) 0); [lia |]. simpl in E.
    apply (f_equal length) in E. rewrite length_imap in E. simpl in E.
    pose proof (grid_rects_length img rows cols ltac:(lia) ltac:(lia)). nia.
  - intros Hdeg.
    destruct (Z.eqb_spec (width img / cols) 0); [done |].
    destruct (Z.eqb_spec (height img / rows) 0); [done |]. simpl.
    assert (Hnil : grid_rects img rows cols = []); [| by rewrite Hnil].
    rewrite grid_rects_rows.
    destruct (decide (rows <= 0)); [by rewrite (seqZ_nil 0 rows) |].
    destruct (decide (cols <= 0)) as [Hc|Hc].
    + rewrite (seqZ_nil 0 cols) by done. simpl.
      induction (seqZ 0 rows) as [|a l IH]; [done | by rewrite bind_cons, IH].
    + exfalso. destruct Hdeg as [?|[?|[Hd|Hd]]]; try lia.
      * rewrite Z.div_small in * by lia. done.
      * rewrite (Z.div_small (height img)) in * by lia. done.
Qed.

Lemma sliceSpritesheet_empty_witness :
  sliceSpritesheet blank square4 2 5 false None None = [].
Proof.
  apply (sliceSpritesheet_empty blank square4 2 5 false None None).
  right; right; left. by vm_compute.
Defined.

(** X8.  On a grid of at least one row and column whose cells are at least
    one pixel each way, the frame at position [k] has id [k] and shows
    the cell in row [k div cols] and column [k mod cols]. *)
Theorem sliceSpritesheet_cell (draw : Renderer) (img : Image) (rows cols : Z)
  (removeBackground : bool) (backgroundColor : option Color)
  (customSize : option (Z * Z)) (k : nat) :
  1 <= rows -> 1 <= cols -> 1 <= width img / cols -> 1 <= height img / rows ->
  Z.of_nat k < rows * cols ->
  exists f,
    sliceSpritesheet draw img rows cols removeBackground backgroundColor customSize
      !! k = Some f /\
    id f = Z.of_nat k /\
    sourceRect f =
      {| rx := (Z.of_nat k mod cols) * (width img / cols);
         ry := (Z.of_nat k / cols) * (height img / rows);
         rwidth := width img / cols; rheight := height img / rows;
         rpath := None |}.
Proof.
  intros Hrows Hcols Hgw Hgh Hk. rewrite sliceSpritesheet_frames.
  destruct (Z.eqb_spec (width img / cols) 0); [lia |].
  destruct (Z.eqb_spec (height img / rows) 0); [lia |]. simpl.
  rewrite list_lookup_imap, grid_rects_lookup by lia. simpl.
  eexists. split; [reflexivity |]. by split.
Qed.

Lemma sliceSpritesheet_cell_witness :
  exists f,
    sliceSpritesheet blank square4 2 2 false None None !! 3%nat = Some f /\
    id f = 3 /\
    sourceRect f = {| rx := 2; ry := 2; rwidth := 2; rheight := 2; rpath := None |}.
Proof.
  apply (sliceSpritesheet_cell blank square4 2 2 false None None 3); by vm_compute.
Defined.

Lemma sliceSpritesheet_source img draw rows cols rb bg cs (k : nat) f :
  1 <= rows -> 1 <= cols -> 1 <= width img / cols -> 1 <= height img / rows ->
  sliceSpritesheet draw img rows cols rb bg cs !! k = Some f ->
  Z.of_nat k < rows * cols /\
  sourceRect f = cell_rect (width img / cols) (height img / rows)
                   (Z.of_nat k / cols) (Z.of_nat k mod cols).
Proof.
  intros Hrows Hcols Hgw Hgh Hf.
  assert (Hk : Z.of_nat k < rows * cols).
  { apply lookup_lt_Some in Hf. rewrite sliceSpritesheet_frames in Hf.
    destruct (_ || _); [simpl in Hf; lia |]. rewrite length_imap in Hf.
    pose proof (grid_rects_length img rows cols ltac:(lia) ltac:(lia)). lia. }
  split; [done |].
  rewrite sliceSpritesheet_frames in Hf. destruct (_ || _); [done |].
  rewrite list_lookup_imap, grid_rects_lookup in Hf by lia. simpl in Hf.
  by injection Hf as <-.
Qed.

(** X9.  On such a grid every frame's source rect lies inside the image,
    and the source rects of two different frames do not overlap: one
    ends where or before the other begins, along [x] or along [y]. *)
Theorem sliceSpritesheet_tiles (draw : Renderer) (img : Image) (rows cols : Z)
  (removeBackground : bool) (backgroundColor : option Color)
  (customSize : option (Z * Z)) (k k' : nat) (f f' : ProcessedFrame) :
  1 <= rows -> 1 <= cols -> 1 <= width img / cols -> 1 <= height img / rows ->
  sliceSpritesheet draw img rows cols removeBackground backgroundColor customSize
    !! k = Some f ->
  sliceSpritesheet draw img rows cols removeBackground backgroundColor customSize
    !! k' = Some f' ->
  (0 <= rx (sourceRect f) /\ 0 <= ry (sourceRect f) /\
   rx (sourceRect f) + rwidth (sourceRect f) <= width img /\
   ry (sourceRect f) + rheight (sourceRect f) <= height img) /\
  (k <> k' ->
   rx (sourceRect f) + rwidth (sourceRect f) <= rx (sourceRect f') \/
   rx (sourceRect f') + rwidth (sourceRect f') <= rx (sourceRect f) \/
   ry (sourceRect f) + rheight (sourceRect f) <= ry (sourceRect f') \/
   ry (sourceRect f') + rheight (sourceRect f') <= ry (sourceRect f)).
Proof.
  intros Hrows Hcols Hgw Hgh Hf Hf'.
  destruct (sliceSpritesheet_source _ _ _ _ _ _ _ _ _ Hrows Hcols Hgw Hgh Hf)
    as [Hk ->].
  destruct (sliceSpritesheet_source _ _ _ _ _ _ _ _ _ Hrows Hcols Hgw Hgh Hf')
    as [Hk' ->].
  simpl.
  pose proof (Z.div_mod (Z.of_nat k) cols ltac:(lia)) as Hdm.
  pose proof (Z.mod_pos_bound (Z.of_nat k) cols ltac:(lia)) as Hm.
  pose proof (Z.div_mod (Z.of_nat k') cols ltac:(lia)) as Hdm'.
  pose proof (Z.mod_pos_bound (Z.of_nat k') cols ltac:(lia)) as Hm'.
  assert (Hd0 : 0 <= Z.of_nat k / cols) by (apply Z.div_pos; lia).
  assert (Hd1 : Z.of_nat k / cols < rows) by (apply Z.div_lt_upper_bound; lia).
  pose proof (Z.mul_div_le (width img) cols ltac:(lia)) as Hcw.
  pose proof (Z.mul_div_le (height img) rows ltac:(lia)) as Hch.
  set (r := Z.of_nat k / cols) in *. set (c := Z.of_nat k mod cols) in *.
  set (r' := Z.of_nat k' / cols) in *. set (c' := Z.of_nat k' mod cols) in *.
  set (cw := width img / cols) in *. set (ch := height img / rows) in *.
  split; [nia |]. intros Hne.
  assert (Hcell : c < c' \/ c' < c \/ r < r' \/ r' < r).
  { destruct (Z.lt_total c c') as [?|[Ec|?]]; [tauto | | tauto].
    destruct (Z.lt_total r r') as [?|[Er|?]]; [tauto | | tauto].
    exfalso. rewrite Ec, Er in Hdm. lia. }
  destruct Hcell as [H|[H|[H|H]]]; [left | right; left | do 2 right; left | do 3 right]; nia.
Qed.

Lemma sliceSpritesheet_tiles_witness :
  exists f f',
    sliceSpritesheet blank square4 2 2 false None None !! 0%nat = Some f /\
    sliceSpritesheet blank square4 2 2 false None None !! 3%nat = Some f' /\
    (rx (sourceRect f) + rwidth (sourceRect f) <= rx (sourceRect f') \/
     rx (sourceRect f') + rwidth (sourceRect f') <= rx (sourceRect f) \/
     ry (sourceRect f) + rheight (sourceRect f) <= ry (sourceRect f') \/
     ry (sourceRect f') + rheight (sourceRect f') <= ry (sourceRect f)).
Proof.
  destruct (sliceSpritesheet blank square4 2 2 false None None !! 0%nat)
    as [f|] eqn:E; [| by vm_compute in E].
  destruct (sliceSpritesheet blank square4 2 2 false None None !! 3%nat)
    as [f'|] eqn:E'; [| by vm_compute in E'].
  exists f, f'. split; [done |]. split; [done |].
  apply (sliceSpritesheet_tiles blank square4 2 2 false None None 0 3 f f');
    try done; by vm_compute.
Defined.

(** ** The frame preview *)

Lemma find_dense (frames : list ProcessedFrame) (k : Z) (o : nat) :
  (forall i f, frames !! i = Some f -> id f = Z.of_nat (o + i)) ->
  find (fun f => id f =? k) frames =
  if Z.of_nat o <=? k then frames !! (Z.to_nat k - o)%nat else None.
Proof.
  revert o. induction frames as [|f frames IH]; intros o Hid; simpl.
  { by destruct (_ <=? _). }
  pose proof (Hid 0%nat f eq_refl) as Hf. rewrite Nat.add_0_r in Hf.
  destruct (Z.eqb_spec (id f) k) as [E|E].
  - destruct (Z.leb_spec (Z.of_nat o) k); [| lia].
    by replace (Z.to_nat k - o)%nat with 0%nat by lia.
  - rewrite (IH (S o)).
    2:{ intros i f' Hi. rewrite (Hid (S i) f' Hi). f_equal. lia. }
    destruct (Z.leb_spec (Z.of_nat (S o)) k), (Z.leb_spec (Z.of_nat o) k);
      try lia; [| done].
    by replace (Z.to_nat k - o)%nat with (S (Z.to_nat k - S o)) by lia.
Qed.

Lemma sliceSpritesheet_ids draw img rows cols rb bg cs (i : nat) f :
  sliceSpritesheet draw img rows cols rb bg cs !! i = Some f -> id f = Z.of_nat i.
Proof.
  rewrite sliceSpritesheet_frames. destruct (_ || _); [done |].
  rewrite list_lookup_imap. destruct (_ !! i); [| done]. simpl. by intros [= <-].
Qed.

(** X10.  In the preview, selecting the id [k] among the frames of either
    slicer shows the frame at position [k]; an id below 0 or past the
    last frame shows none. *)
Theorem selectedFrame_position (draw : Renderer) (img : Image) (rects : list Rect)
  (rows cols : Z) (removeBackground : bool) (backgroundColor : option Color)
  (customSize : option (Z * Z)) (k : Z) :
  let sliced :=
    sliceFromRects draw img rects removeBackground backgroundColor customSize in
  let grid :=
    sliceSpritesheet draw img rows cols removeBackground backgroundColor customSize in
  selectedFrame sliced (Some k) = (if 0 <=? k then sliced !! Z.to_nat k else None) /\
  selectedFrame grid (Some k) = (if 0 <=? k then grid !! Z.to_nat k else None) /\
  (k < 0 \/ Z.of_nat (length rects) <= k -> selectedFrame sliced (Some k) = None).
Proof.
  intros sliced grid.
  assert (Hs : selectedFrame sliced (Some k)
               = if 0 <=? k then sliced !! Z.to_nat k else None).
  { unfold selectedFrame. rewrite (find_dense sliced k 0).
    - simpl. by rewrite Nat.sub_0_r.
    - intros i f Hi. by apply sliceFromRects_lookup in Hi as [-> _]. }
  split; [done |]. split.
  - unfold selectedFrame. rewrite (find_dense grid k 0).
    + simpl. by rewrite Nat.sub_0_r.
    + intros i f Hi. by apply sliceSpritesheet_ids in Hi.
  - intros Hk. rewrite Hs. destruct (Z.leb_spec 0 k); [| done].
    apply lookup_ge_None. unfold sliced. rewrite sliceFromRects_length. lia.
Qed.

Lemma selectedFrame_position_witness :
  selectedFrame (sliceFromRects blank dot [wide; wide] false None None) (Some 2)
  = None.
Proof.
  destruct (selectedFrame_position blank dot [wide; wide] 1 1 false None None 2)
    as (_ & _ & Hout).
  apply Hout. right. simpl. lia.
Defined.

(** ** The application *)

Lemma grid_push_row (W H : Z) (r : Z) (cs : list Z) (acc : list Rect) :
  fold_left (fun gridRects c =>
      gridRects ++ [{| rx := c * W; ry := r * H; rwidth := W; rheight := H;
                       rpath := None |}]) cs acc
  = acc ++ (cell_rect W H r <$> cs).
Proof.
  revert acc. induction cs as [|c cs IH]; intros acc; simpl.
  - by rewrite app_nil_r.
  - rewrite IH, <- app_assoc. done.
Qed.

Lemma app_grid_rects_cells (img : Image) (config : SpriteConfig) :
  app_grid_rects (uploaded img) config = grid_rects img (rows config) (cols config).
Proof.
  unfold app_grid_rects. rewrite grid_rects_rows. simpl.
  set (W := width img / cols config). set (H := height img / rows config).
  assert (Hgen : forall rs acc,
            fold_left (fun gridRects r =>
                fold_left (fun gridRects c =>
                    gridRects ++ [{| rx := c * W; ry := r * H; rwidth := W;
                                     rheight := H; rpath := None |}])
                  (seqZ 0 (cols config)) gridRects) rs acc
            = acc ++ (r ← rs; (cell_rect W H r <$> seqZ 0 (cols config)))).
  { induction rs as [|r rs IH]; intros acc; simpl fold_left.
    - by rewrite app_nil_r.
    - rewrite grid_push_row, IH, bind_cons, app_assoc. done. }
  by rewrite Hgen.
Qed.

Lemma fmap_sourceRect_imap (g : nat -> Rect -> ProcessedFrame) (rects : list Rect) :
  (forall i r, sourceRect (g i r) = r) -> sourceRect <$> imap g rects = rects.
Proof.
  revert g. induction rects as [|r rects IH]; intros g Hg; [done |].
  rewrite imap_cons, fmap_cons, Hg. f_equal. apply IH. intros i r'. apply Hg.
Qed.

(** X11.  In grid mode, on a grid of at least one row and column whose
    cells are at least one pixel each way, the rects that the application
    shows over the image are, in order, the source rects of the frames it
    gets from [sliceSpritesheet]. *)
Theorem process_grid_aligned (draw : Renderer) (img : Image) (config : SpriteConfig) :
  1 <= rows config -> 1 <= cols config ->
  1 <= width img / cols config -> 1 <= height img / rows config ->
  let '(gridRects, frames) := process_grid draw (uploaded img) config in
  sourceRect <$> frames = gridRects /\
  Z.of_nat (length frames) = rows config * cols config.
Proof.
  intros Hrows Hcols Hgw Hgh. unfold process_grid.
  rewrite app_grid_rects_cells. simpl src. rewrite sliceSpritesheet_frames.
  destruct (Z.eqb_spec (width img / cols config) 0); [lia |].
  destruct (Z.eqb_spec (height img / rows config) 0); [lia |]. simpl.
  split; [by apply fmap_sourceRect_imap |].
  rewrite length_imap. apply grid_rects_length; lia.
Qed.

Lemma process_grid_aligned_witness :
  let '(gridRects, frames) := process_grid blank (uploaded square4) grid_2x2 in
  sourceRect <$> frames = gridRects /\
  Z.of_nat (length frames) = rows grid_2x2 * cols grid_2x2.
Proof. apply (process_grid_aligned blank square4 grid_2x2); by vm_compute. Defined.

(** X12.  In smart mode the frames answer the detected rects one for one:
    frame [k] has id [k] and the [k]-th rect as its source.  Without a
    custom size and with at least one sprite, the common frame size is
    the width of the widest rect and the height of the tallest, so every
    sprite fits its frame. *)
Theorem process_smart_frames (draw : Renderer) (img : Image) (config : SpriteConfig) :
  exists rects frames,
    process_smart draw (uploaded img) config = Finished (rects, frames) /\
    length frames = length rects /\
    (forall k f, frames !! k = Some f ->
       id f = Z.of_nat k /\ rects !! k = Some (sourceRect f)) /\
    (useCustomSize config = false -> rects <> [] ->
     exists a b, a ∈ rects /\ b ∈ rects /\
       (forall f, f ∈ frames ->
          frame_width f = rwidth a /\ frame_height f = rheight b) /\
       (forall r, r ∈ rects -> rwidth r <= rwidth a /\ rheight r <= rheight b)).
Proof.
  unfold process_smart. simpl src.
  destruct (detectSprites_boxes img) as (seeds & boxes & E & _).
  pose proof (detectSprites_inside img _ E) as Hin. rewrite E.
  set (rects := sort_by compare_rects boxes) in *.
  eexists _, _. split; [reflexivity |].
  split; [apply sliceFromRects_length |]. split.
  - intros k f Hf. apply sliceFromRects_lookup in Hf. tauto.
  - intros Hcs Hne. unfold custom_size. rewrite Hcs.
    pose proof (auto_size_fold rects 0 0) as Hfold.
    assert (Hsize : final_size rects None
              = (let '(fw, fh) := fold_left _ rects (0, 0) in (Z.max 1 fw, Z.max 1 fh)))
      by reflexivity.
    destruct (fold_left _ rects (0, 0)) as [fw fh].
    destruct Hfold as (_ & Hall & Hw & Hh).
    destruct rects as [|r0 rest] eqn:Er; [done |].
    assert (H0 : r0 ∈ r0 :: rest) by by left.
    rewrite Forall_forall in Hin.
    destruct Hw as [->|(a & Ha & Hw)].
    { destruct (Hall r0 H0). pose proof (Hin r0 H0). lia. }
    destruct Hh as [->|(b & Hb & Hh)].
    { destruct (Hall r0 H0). pose proof (Hin r0 H0). lia. }
    exists a, b. split; [done |]. split; [done |]. split.
    + intros f Hf. apply list_elem_of_lookup in Hf as [k Hf].
      apply sliceFromRects_lookup in Hf as (_ & _ & -> & ->).
      rewrite Hsize. simpl. pose proof (Hin a Ha). pose proof (Hin b Hb). lia.
    + intros r Hr. destruct (Hall r Hr). lia.
Qed.

Lemma process_smart_frames_witness :
  exists rects frames,
    process_smart blank (uploaded pair_row) grid_2x2 = Finished (rects, frames) /\
    length frames = length rects.
Proof.
  destruct (process_smart_frames blank pair_row grid_2x2)
    as (rects & frames & E & Hlen & _).
  by exists rects, frames.
Defined.

Lemma filter_index_skip {A} (l : list A) (s index : nat) :
  (index < s)%nat -> filter_index (fun i => negb (i =? index)%nat) s l = l.
Proof.
  revert s. induction l as [|a l IH]; intros s Hs; simpl; [done |].
  destruct (Nat.eqb_spec s index); [lia |]. simpl. f_equal. apply IH. lia.
Qed.

Lemma filter_index_drop {A} (l : list A) (s n : nat) :
  filter_index (fun i => negb (i =? s + n)%nat) s l = take n l ++ drop (S n) l.
Proof.
  revert s n. induction l as [|a l IH]; intros s n; simpl; [by destruct n |].
  destruct n as [|n]; simpl.
  - rewrite Nat.add_0_r, Nat.eqb_refl. simpl. rewrite drop_0.
    apply filter_index_skip. lia.
  - destruct (Nat.eqb_spec s (s + S n)); [lia |]. simpl. f_equal.
    rewrite <- (IH (S s) n). by replace (s + S n)%nat with (S s + n)%nat by lia.
Qed.

(** X13.  [removeManualRect] drops the entry at the index and keeps the
    others in order; an index past the end leaves the list as it is, and
    removing the rect that was just added gives the list back. *)
Theorem removeManualRect_at {A} (index : nat) (prev : list A) (rect : A) :
  removeManualRect index prev = take index prev ++ drop (S index) prev /\
  ((length prev <= index)%nat -> removeManualRect index prev = prev) /\
  removeManualRect (length prev) (addManualRect rect prev) = prev.
Proof.
  assert (Hrem : forall l : list A,
            removeManualRect index l = take index l ++ drop (S index) l).
  { intros l. unfold removeManualRect. by rewrite <- (filter_index_drop l 0 index). }
  split; [apply Hrem |]. split.
  - intros Hlen. rewrite Hrem, take_ge, drop_ge, app_nil_r by lia. done.
  - unfold removeManualRect, addManualRect.
    rewrite <- (Nat.add_0_l (length prev)), filter_index_drop. simpl.
    rewrite take_app_length, drop_ge, app_nil_r; [done |].
    rewrite length_app. simpl. lia.
Qed.

Lemma removeManualRect_at_witness :
  removeManualRect 5 [wide; wide] = [wide; wide].
Proof.
  destruct (removeManualRect_at 5 [wide; wide] wide) as (_ & Hpast & _).
  apply Hpast. simpl. lia.
Defined.

(** ** The editor: a free-hand stroke *)

Lemma Qltb_cases a b :
  (Qltb a b = true /\ (a < b)%Q) \/ (Qltb a b = false /\ (b <= a)%Q).
Proof.
  destruct (Qltb a b) eqn:E.
  - left. split; [done | by apply Qltb_lt].
  - right. split; [done |]. apply Qnot_lt_le. intros H. apply Qltb_lt in H. congruence.
Qed.

Lemma widen_covers_new b p : covers (widen b p) p.
Proof.
  unfold covers, widen. simpl.
  destruct (path_minX b) as [a|], (path_maxX b) as [c|],
    (path_minY b) as [e|], (path_maxY b) as [g|].
  all: repeat match goal with
       | |- context [Qltb ?u ?v] =>
           destruct (Qltb_cases u v) as [[-> ?]|[-> ?]]
       end.
  all: eexists _, _, _, _; repeat split; try reflexivity; lra.
Qed.

Lemma widen_covers_old b p q : covers b q -> covers (widen b p) q.
Proof.
  intros (a & c & e & g & Ea & Ec & Ee & Eg & H).
  unfold covers, widen. simpl. rewrite Ea, Ec, Ee, Eg.
  repeat match goal with
         | |- context [Qltb ?u ?v] =>
             destruct (Qltb_cases u v) as [[-> ?]|[-> ?]]
         end.
  all: eexists _, _, _, _; repeat split; try reflexivity; lra.
Qed.

Lemma widen_fold_covers (path : list (Q * Q)) (b : PathBounds) :
  (forall q, covers b q -> covers (fold_left widen path b) q) /\
  (forall p, p ∈ path -> covers (fold_left widen path b) p).
Proof.
  revert b. induction path as [|p path IH]; intros b; simpl.
  { split; [done |]. intros p H. by apply elem_of_nil in H. }
  destruct (IH (widen b p)) as [Hold Hnew]. split.
  - intros q Hq. by apply Hold, widen_covers_old.
  - intros q Hq. apply elem_of_cons in Hq as [->|Hq]; [| by apply Hnew].
    apply Hold, widen_covers_new.
Qed.

(** X14.  Releasing the mouse adds at most one rect, at the end of the
    list.  A rect is added only for a stroke of three points or more; it
    keeps the stroke as its path, is at least 3 wide and 3 high, starts at
    or before every point of the path and ends less than one pixel short
    of holding them all; the stroke is then over.  A stroke of fewer than
    three points adds nothing. *)
Theorem handleMouseUp_rect (st : Editor) :
  (manualRects (handleMouseUp st) = manualRects st \/
   exists r,
     manualRects (handleMouseUp st) = manualRects st ++ [r] /\
     drawn_path r = currentPath st /\
     (3 <= length (currentPath st))%nat /\
     3 <= drawn_width r /\ 3 <= drawn_height r /\
     isDrawing (handleMouseUp st) = false /\
     currentPath (handleMouseUp st) = [] /\
     forall p, p ∈ currentPath st ->
       (inject_Z (drawn_x r) <= p.1 /\
        p.1 < inject_Z (drawn_x r + drawn_width r + 1) /\
        inject_Z (drawn_y r) <= p.2 /\
        p.2 < inject_Z (drawn_y r + drawn_height r + 1))%Q) /\
  ((length (currentPath st) < 3)%nat ->
   manualRects (handleMouseUp st) = manualRects st).
Proof.
  unfold handleMouseUp.
  destruct (isWandMode st); [split; [by left | done] |].
  destruct (negb (isDrawing st) || negb (is_manual (ed_mode st)));
    [split; [by left | done] |].
  destruct (Nat.ltb_spec (length (currentPath st)) 3) as [Hshort|Hlong];
    [split; [by left | done] |].
  split; [| lia].
  destruct (path_rect (currentPath st)) as [rect|] eqn:Erect; [| by left].
  destruct (Z.gtb_spec (drawn_width rect) 2) as [Hw|Hw]; [| by left].
  destruct (Z.gtb_spec (drawn_height rect) 2) as [Hh|Hh]; [| by left].
  right. exists rect. simpl. unfold addManualRect. split; [done |].
  unfold path_rect in Erect.
  pose proof (widen_fold_covers (currentPath st)
                {| path_minX := None; path_maxX := None;
                   path_minY := None; path_maxY := None |}) as [_ Hcov].
  destruct (path_minX _) as [a|] eqn:Ea; [| done].
  destruct (path_maxX _) as [c|] eqn:Ec; [| done].
  destruct (path_minY _) as [e|] eqn:Ee; [| done].
  destruct (path_maxY _) as [g|] eqn:Eg; [| done].
  injection Erect as <-. simpl in *.
  repeat (split; [done || lia |]).
  intros p Hp.
  destruct (Hcov p Hp) as (a' & c' & e' & g' & Ea' & Ec' & Ee' & Eg' & H).
  rewrite Ea in Ea'. rewrite Ec in Ec'. rewrite Ee in Ee'. rewrite Eg in Eg'.
  injection Ea' as <-. injection Ec' as <-. injection Ee' as <-. injection Eg' as <-.
  pose proof (Qfloor_le a). pose proof (Qlt_floor a).
  pose proof (Qfloor_le e). pose proof (Qlt_floor e).
  pose proof (Qle_ceiling (c - a)). pose proof (Qle_ceiling (g - e)).
  rewrite !inject_Z_plus in *.
  revert H H0 H1 H2 H3 H4 H5.
  generalize (inject_Z (Qfloor a)) (inject_Z (Qfloor e))
    (inject_Z (Qceiling (c - a))) (inject_Z (Qceiling (g - e))).
  intros. change (inject_Z 1) with 1%Q in *. lra.
Qed.

Lemma handleMouseUp_rect_witness :
  exists r,
    manualRects (handleMouseUp stroke) = manualRects stroke ++ [r] /\
    3 <= drawn_width r /\ 3 <= drawn_height r /\
    (inject_Z (drawn_x r) <= 9 # 2 /\ 9 # 2 < inject_Z (drawn_x r + drawn_width r + 1))%Q.
Proof.
  destruct (handleMouseUp_rect stroke) as [[Hsame|(r & Hadd & _ & _ & Hw & Hh & _ & _ & Hin)] _].
  - by vm_compute in Hsame.
  - exists r. split; [done |]. split; [done |]. split; [done |].
    destruct (Hin (9 # 2, 1)%Q) as (Hx0 & Hx1 & _).
    + right. by left.
    + by split.
Defined.

(** ** The editor: removing a rect *)

Lemma topmost_spec coords (rects : list DrawnRect) (i : nat) :
  match topmost coords rects i with
  | Some j =>
      (j < i)%nat /\
      exists r, rects !! j = Some r /\ under coords r = true /\
        forall k r', (j < k < i)%nat -> rects !! k = Some r' ->
          under coords r' = false
  | None =>
      forall k r', (k < i)%nat -> rects !! k = Some r' -> under coords r' = false
  end.
Proof.
  induction i as [|i IH]; simpl; [intros k r' Hk; lia |].
  destruct (rects !! i) as [r|] eqn:Er.
  - destruct (under coords r) eqn:Hu.
    + split; [lia |]. exists r. split; [done |]. split; [done |]. intros; lia.
    + destruct (topmost coords rects i) as [j|].
      * destruct IH as (Hj & r0 & Hr0 & Hu0 & Hrest).
        split; [lia |]. exists r0. split; [done |]. split; [done |].
        intros k r' Hk Hr'. destruct (decide (k = i)) as [->|Hne].
        -- congruence.
        -- apply (Hrest k); [lia | done].
      * intros k r' Hk Hr'. destruct (decide (k = i)) as [->|Hne].
        -- congruence.
        -- apply (IH k); [lia | done].
  - destruct (topmost coords rects i) as [j|].
    + destruct IH as (Hj & r0 & Hr0 & Hu0 & Hrest).
      split; [lia |]. exists r0. split; [done |]. split; [done |].
      intros k r' Hk Hr'. destruct (decide (k = i)) as [->|Hne].
      * congruence.
      * apply (Hrest k); [lia | done].
    + intros k r' Hk Hr'. destruct (decide (k = i)) as [->|Hne].
      * congruence.
      * apply (IH k); [lia | done].
Qed.

(** X15.  A right click in manual mode removes exactly one rect, the last
    of the list that lies under the mouse, and keeps the others in
    order; when no rect lies under the mouse nothing changes. *)
Theorem handleContextMenu_topmost (coords : Q * Q) (st : Editor) :
  isWandMode st = false -> ed_mode st = manual ->
  ((forall r, r ∈ manualRects st -> under coords r = false) /\
   handleContextMenu coords st = st) \/
  (exists l1 r l2,
     manualRects st = l1 ++ r :: l2 /\
     under coords r = true /\
     (forall r', r' ∈ l2 -> under coords r' = false) /\
     manualRects (handleContextMenu coords st) = l1 ++ l2).
Proof.
  intros Hwand Hmode. unfold handleContextMenu. rewrite Hwand, Hmode. simpl.
  pose proof (topmost_spec coords (manualRects st) (length (manualRects st))) as Hspec.
  destruct (topmost coords (manualRects st) (length (manualRects st))) as [j|].
  - right. destruct Hspec as (Hj & r & Hr & Hu & Hrest).
    exists (take j (manualRects st)), r, (drop (S j) (manualRects st)).
    split; [by rewrite take_drop_middle |]. split; [done |]. split.
    + intros r' Hr'. apply list_elem_of_lookup in Hr' as [k Hk].
      rewrite lookup_drop in Hk. apply (Hrest (S j + k)%nat); [| done].
      apply lookup_lt_Some in Hk. lia.
    + simpl. unfold removeManualRect.
      by rewrite <- (filter_index_drop (manualRects st) 0 j).
  - left. split; [| done]. intros r Hr.
    apply list_elem_of_lookup in Hr as [k Hk].
    apply (Hspec k); [| done]. by apply lookup_lt_Some in Hk.
Qed.

Lemma handleContextMenu_topmost_witness :
  ((forall r, r ∈ manualRects two_rects -> under (7, 7)%Q r = false) /\
   handleContextMenu (7, 7)%Q two_rects = two_rects) \/
  (exists l1 r l2,
     manualRects two_rects = l1 ++ r :: l2 /\
     under (7, 7)%Q r = true /\
     (forall r', r' ∈ l2 -> under (7, 7)%Q r' = false) /\
     manualRects (handleContextMenu (7, 7)%Q two_rects) = l1 ++ l2).
Proof. by apply (handleContextMenu_topmost (7, 7)%Q two_rects). Defined.

(** ** The editor: a wand click *)

Lemma scaled_inside (W : Z) (c l w : Q) :
  0 < W -> (0 < w)%Q -> (l <= c)%Q -> (c < l + w)%Q ->
  (0 <= (c - l) * (inject_Z W / w) /\ (c - l) * (inject_Z W / w) < inject_Z W)%Q.
Proof.
  intros HW Hw Hl Hr.
  assert (HWq : (0 < inject_Z W)%Q) by (apply inject_Z_pos; lia).
  assert (Hs : (0 < inject_Z W / w)%Q).
  { apply Qlt_shift_div_l; [done |]. lra. }
  split.
  - apply Qmult_le_0_compat; lra.
  - apply Qlt_le_trans with (w * (inject_Z W / w))%Q.
    + apply Qmult_lt_compat_r; [done | lra].
    + rewrite Qmult_div_r; [lra |]. intros E. rewrite E in Hw. lra.
Qed.

(** X16.  A left click in wand mode anywhere on the shown canvas of a
    non-empty image lands on a pixel of the image: the selection is then
    [None] exactly when that pixel has alpha 0, and otherwise a mask that
    marks the pixel; the manual rects are left alone. *)
Theorem handleMouseDown_wand (img : Image) (rect : ClientRect) (e : MouseEvent)
  (st : Editor) :
  button e = 0 -> isWandMode st = true ->
  0 < width img -> 0 < height img ->
  (0 < rect_width rect)%Q -> (0 < rect_height rect)%Q ->
  (rect_left rect <= clientX e)%Q ->
  (clientX e < rect_left rect + rect_width rect)%Q ->
  (rect_top rect <= clientY e)%Q ->
  (clientY e < rect_top rect + rect_height rect)%Q ->
  let coords := getCanvasCoords img rect e in
  let seed : pixel := (Qfloor coords.1, Qfloor coords.2) in
  inside img seed /\
  exists st',
    handleMouseDown img rect e st = Finished st' /\
    (selectionMask st' = None <-> alpha_at img (index_of img seed) = 0) /\
    (forall mask, selectionMask st' = Some mask ->
       rd mask (index_of img seed) = 1) /\
    manualRects st' = manualRects st.
Proof.
  intros Hbtn Hwand HW HH Hrw Hrh Hx0 Hx1 Hy0 Hy1 coords seed.
  destruct (scaled_inside (width img) (clientX e) (rect_left rect)
              (rect_width rect) HW Hrw Hx0 Hx1) as [Hcx0 Hcx1].
  destruct (scaled_inside (height img) (clientY e) (rect_top rect)
              (rect_height rect) HH Hrh Hy0 Hy1) as [Hcy0 Hcy1].
  assert (Hin : inside img seed).
  { apply floor_inside. unfold out_of_bounds. unfold coords, getCanvasCoords.
    simpl. intros [H|[H|[H|H]]]; lra. }
  split; [done |].
  unfold handleMouseDown, handleWandSelect. rewrite Hbtn, Hwand. simpl negb.
  cbv iota. fold coords.
  set (fx := Qfloor coords.1) in *. set (fy := Qfloor coords.2) in *.
  assert (Hnb : ~ out_of_bounds img (inject_Z fx) (inject_Z fy)).
  { destruct Hin as [[? ?] [? ?]]. simpl in *. unfold out_of_bounds.
    change 0%Q with (inject_Z 0).
    rewrite <- !Zlt_Qlt, <- !Zle_Qle. lia. }
  destruct (performFloodFill_spec img (inject_Z fx) (inject_Z fy) 30)
    as [Hnone Hsome].
  rewrite !Qfloor_Z in Hnone, Hsome. fold seed in Hnone, Hsome.
  destruct (decide (alpha_at img (index_of img seed) = 0)) as [Ha|Ha].
  - rewrite Hnone by by right. eexists. split; [reflexivity |]. simpl.
    split; [done |]. split; done.
  - destruct (Hsome Hnb Ha) as (mask & E & _ & _ & Hmask). rewrite E.
    eexists. split; [reflexivity |]. simpl.
    split; [split; [done | tauto] |]. split; [| done].
    intros m [= <-]. apply Hmask; [done | constructor].
Qed.

Lemma handleMouseDown_wand_witness :
  inside red_blue (1, 0) /\
  exists st',
    handleMouseDown red_blue shown click wand_editor = Finished st' /\
    (selectionMask st' = None <-> alpha_at red_blue (index_of red_blue (1, 0)) = 0) /\
    (forall mask, selectionMask st' = Some mask ->
       rd mask (index_of red_blue (1, 0)) = 1) /\
    manualRects st' = manualRects wand_editor.
Proof.
  apply (handleMouseDown_wand red_blue shown click wand_editor);
    by vm_compute.
Defined.

(** ** Background removal in the frames *)

Lemma keyed_pixel_clean tol bg (p : Z * Z * Z * Z) r g b a :
  keyed_pixel tol bg p = (r, g, b, a) ->
  a = 0 \/ manhattan r g b (cr bg) (cg bg) (cb bg) > tol.
Proof.
  destruct p as [[[r0 g0] b0] a0]. simpl.
  destruct (Z.eqb_spec a0 0) as [->|Ha]; [intros [= <- <- <- <-]; by left |].
  destruct (Z.leb_spec (manhattan r0 g0 b0 (cr bg) (cg bg) (cb bg)) tol).
  - intros [= <- <- <- <-]. by left.
  - intros [= <- <- <- <-]. right. lia.
Qed.

Lemma rect_frame_keyed draw img key cs fw fh i rect k r g b a :
  pixels_of (dataUrl (rect_frame draw img true (Some key) cs fw fh i rect)) !! k
    = Some (r, g, b, a) ->
  a = 0 \/ manhattan r g b (cr key) (cg key) (cb key) > 30.
Proof.
  simpl. unfold removeBackgroundFromContext.
  rewrite chroma_loop_keyed, list_lookup_fmap.
  destruct (pixels_of _ !! k) as [p|]; [| done]. simpl. intros [= E].
  by apply (keyed_pixel_clean 30 key p).
Qed.

(** X17.  With background removal on, no frame of either slicer keeps a
    visible pixel of the background: every pixel of every frame has alpha
    0 or lies further than 30 from the key colour, which is the given
    colour or else the top-left pixel of the whole source image. *)
Theorem frames_background_removed (draw : Renderer) (img : Image)
  (rects : list Rect) (rows cols : Z) (backgroundColor : option Color)
  (customSize : option (Z * Z)) (f : ProcessedFrame) :
  f ∈ sliceFromRects draw img rects true backgroundColor customSize \/
  f ∈ sliceSpritesheet draw img rows cols true backgroundColor customSize ->
  let key :=
    match backgroundColor with
    | Some c => c
    | None => {| cr := rd (data img) 0; cg := rd (data img) 1; cb := rd (data img) 2 |}
    end in
  forall k r g b a,
    pixels_of (dataUrl f) !! k = Some (r, g, b, a) ->
    a = 0 \/ manhattan r g b (cr key) (cg key) (cb key) > 30.
Proof.
  intros Hf key.
  assert (Hkey : resolve_background img true backgroundColor = Some key)
    by (unfold key; by destruct backgroundColor).
  assert (Hframe : exists cs fw fh i rect,
            f = rect_frame draw img true (Some key) cs fw fh i rect).
  { destruct Hf as [Hf|Hf].
    - unfold sliceFromRects in Hf. rewrite Hkey in Hf.
      destruct (final_size rects customSize) as [fw fh].
      apply list_elem_of_lookup in Hf as [i Hi]. rewrite list_lookup_imap in Hi.
      destruct (rects !! i) as [rect|]; [| done]. injection Hi as <-. eauto 6.
    - rewrite sliceSpritesheet_frames, Hkey in Hf. destruct (_ || _).
      { by apply elem_of_nil in Hf. }
      apply list_elem_of_lookup in Hf as [i Hi]. rewrite list_lookup_imap in Hi.
      destruct (_ !! i) as [rect|]; [| done]. injection Hi as <-. eauto 6. }
  destruct Hframe as (cs & fw & fh & i & rect & ->).
  intros k r g b a. apply rect_frame_keyed.
Qed.

Lemma frames_background_removed_witness :
  255 = 0 \/ manhattan 255 0 0 (cr white) (cg white) (cb white) > 30.
Proof.
  apply (frames_background_removed white_red dot [wide] 1 1 (Some white) None
           {| id := 0; dataUrl := [255; 255; 255; 0; 255; 0; 0; 255];
              frame_width := 4; frame_height := 2; sourceRect := wide |}
           ltac:(left; by left) 1%nat 255 0 0 255).
  done.
Defined.

(** ** The editor: a whole gesture *)

Lemma moves_path img rect (es : list MouseEvent) (st : Editor) :
  isWandMode st = false -> isDrawing st = true -> ed_mode st = manual ->
  let st' := fold_left (fun s e => handleMouseMove img rect e s) es st in
  isWandMode st' = false /\ isDrawing st' = true /\ ed_mode st' = manual /\
  manualRects st' = manualRects st /\
  currentPath st' = currentPath st ++ (getCanvasCoords img rect <$> es).
Proof.
  revert st. induction es as [|e es IH]; intros st Hw Hd Hm; simpl.
  { by rewrite app_nil_r. }
  destruct (IH (handleMouseMove img rect e st)) as (H1 & H2 & H3 & H4 & H5).
  - unfold handleMouseMove. by rewrite Hw, Hd, Hm.
  - unfold handleMouseMove. by rewrite Hw, Hd, Hm.
  - unfold handleMouseMove. by rewrite Hw, Hd, Hm.
  - split; [done |]. split; [done |]. split; [done |].
    rewrite H4, H5. unfold handleMouseMove. rewrite Hw, Hd, Hm. simpl.
    by rewrite <- app_assoc.
Qed.

(** X18.  In manual mode a press, fewer than two moves and the release
    never add a rect, wherever the mouse went: a stroke needs three
    points.  After the release the editor is not drawing and holds no
    current path. *)
Theorem short_stroke_adds_nothing (img : Image) (rect : ClientRect)
  (e : MouseEvent) (es : list MouseEvent) (st : Editor) :
  button e = 0 -> isWandMode st = false -> ed_mode st = manual ->
  (length es < 2)%nat ->
  exists st1,
    handleMouseDown img rect e st = Finished st1 /\
    let st2 :=
      handleMouseUp (fold_left (fun s e' => handleMouseMove img rect e' s) es st1) in
    manualRects st2 = manualRects st /\
    isDrawing st2 = false /\ currentPath st2 = [].
Proof.
  intros Hbtn Hw Hm Hes. unfold handleMouseDown. rewrite Hbtn, Hw, Hm. simpl.
  eexists. split; [reflexivity |].
  match goal with
  | |- context [fold_left _ es ?s] =>
      destruct (moves_path img rect es s eq_refl eq_refl eq_refl)
        as (H1 & H2 & H3 & H4 & H5)
  end.
  simpl in H4, H5. unfold handleMouseUp. rewrite H1, H2, H3, H5. simpl.
  rewrite length_fmap.
  destruct (Nat.ltb_spec (S (length es)) 3); [| lia]. simpl. by rewrite H4.
Qed.

Lemma short_stroke_adds_nothing_witness :
  exists st1,
    handleMouseDown red_blue shown click idle = Finished st1 /\
    let st2 :=
      handleMouseUp
        (fold_left (fun s e' => handleMouseMove red_blue shown e' s) [click] st1) in
    manualRects st2 = manualRects idle /\
    isDrawing st2 = false /\ currentPath st2 = [].
Proof.
  apply (short_stroke_adds_nothing red_blue shown click [click] idle);
    by (done || (simpl; lia)).
Defined.
